(** * Auto-answer controller: the scroll-aware interaction session

    A shallow embedding of [automation/automation_controller.py] (answer
    parsing, marker extraction, scroll distance, the two answering loops),
    of [OCRService.recognize_text] as far as the controller observes it, and
    of the start handler of [gui/main_window.py].

    Python values are modelled as follows.
    - [int] is [Z]; [//] is [Z.div] (both round towards minus infinity).
    - [str] is a list of Unicode code points ([list N]).
    - a [dict] is a [gmap], a [set] a [gset]; no claim depends on insertion
      order (the only iteration over keys goes through [sorted]).
    - an exception is a value of [exn]; code that can raise lives in the
      monad [M], which threads the controller's mutable state and the trace
      of observable effects. *)

From Stdlib Require Import ZArith NArith Lia Ascii String PrimFloat.
From stdpp Require Import gmap list sorting strings.

Open Scope Z_scope.

(** ** Python strings *)

Module PyStr.

Abbreviation str := (list N).

(** An ASCII literal as a Python string. *)
Definition lit (s : string) : str := N_of_ascii <$> list_ascii_of_string s.

Definition comma : N := 44%N.           (* ',' *)
Definition dot : N := 46%N.             (* '.' *)
Definition lparen : N := 40%N.          (* '(' *)
Definition rparen : N := 41%N.          (* ')' *)
Definition ideographic_comma : N := 12289%N.   (* U+3001 '、' *)
Definition fullwidth_lparen : N := 65288%N.    (* U+FF08 '（' *)
Definition fullwidth_rparen : N := 65289%N.    (* U+FF09 '）' *)
Definition dui : N := 23545%N.          (* U+5BF9 '对' *)
Definition cuo : N := 38169%N.          (* U+9519 '错' *)

(** [str.isspace] on one code point: the characters [str.strip()] removes
    (Unicode 14, as shipped with CPython 3.11). *)
Definition whitespace : list N :=
  [9; 10; 11; 12; 13; 28; 29; 30; 31; 32; 133; 160; 5760; 8192; 8193; 8194;
   8195; 8196; 8197; 8198; 8199; 8200; 8201; 8202; 8232; 8233; 8239; 8287;
   12288]%N.

Definition isspace (c : N) : bool := bool_decide (c ∈ whitespace).

(** Code points of the zero of every run of ten decimal digits (category
    Nd): what [\d] matches on a [str] pattern and what [int] accepts. *)
Definition digit_zeros : list N :=
  [48; 1632; 1776; 1984; 2406; 2534; 2662; 2790; 2918; 3046; 3174; 3302;
   3430; 3558; 3664; 3792; 3872; 4160; 4240; 6112; 6160; 6470; 6608; 6784;
   6800; 6992; 7088; 7232; 7248; 42528; 43216; 43264; 43472; 43504; 43600;
   44016; 65296; 66720; 68912; 69734; 69872; 69942; 70096; 70384; 70736;
   70864; 71248; 71360; 71472; 71904; 72016; 72784; 73040; 73120; 92768;
   92864; 93008; 120782; 120792; 120802; 120812; 120822; 123200; 123632;
   125264; 130032]%N.

Definition digit_value (c : N) : option Z :=
  (fun z => Z.of_N (c - z)) <$>
    List.find (fun z => (z <=? c)%N && (c <? z + 10)%N) digit_zeros.

Definition isdigit (c : N) : bool := bool_decide (is_Some (digit_value c)).

(** [sys.int_info.default_max_str_digits] *)
Definition int_max_str_digits : Z := 4300.

(** [int(s)] for a string of decimal digits; [None] stands for the
    [ValueError] the interpreter raises for a string of more than
    [int_max_str_digits] digits. *)
Definition int (s : str) : option Z :=
  if bool_decide (int_max_str_digits < Z.of_nat (length s)) then None
  else Some (fold_left (fun acc c => 10 * acc + default 0 (digit_value c)) s 0).

Fixpoint lstrip (s : str) : str :=
  match s with
  | c :: s' => if isspace c then lstrip s' else s
  | [] => []
  end.

Definition rstrip (s : str) : str := reverse (lstrip (reverse s)).

(** [s.strip()] *)
Definition strip (s : str) : str := rstrip (lstrip s).

(** [s.split(',')]: always at least one piece. *)
Fixpoint split_comma (s : str) : list str :=
  match s with
  | [] => [[]]
  | c :: s' =>
      if bool_decide (c = comma) then [] :: split_comma s'
      else match split_comma s' with
           | p :: ps => (c :: p) :: ps
           | [] => [[c]]
           end
  end.

(** [s.startswith(p)] *)
Fixpoint startswith (s p : str) : bool :=
  match p, s with
  | [], _ => true
  | a :: p', b :: s' => bool_decide (a = b) && startswith s' p'
  | _ :: _, [] => false
  end.

(** The maximal run of decimal digits at the start of [s], and the rest. *)
Fixpoint span_digits (s : str) : str * str :=
  match s with
  | c :: s' =>
      if isdigit c then let '(ds, r) := span_digits s' in (c :: ds, r)
      else ([], s)
  | [] => ([], [])
  end.

End PyStr.
Import PyStr.

(** ** AnswerParser: [AutomationController.parse_answer] *)

Definition parse_answer (answer : str) : list str :=
  if bool_decide (answer = []) then []
  else
    let answer := strip answer in
    if bool_decide (comma ∈ answer) then
      let options := strip <$> split_comma answer in
      let options := filter (fun opt => opt ≠ []) options in
      options
    else [answer].

(** The parser as the specification words it: blank input gives no token. *)
Definition normalize_spec (raw : str) : list str :=
  if bool_decide (strip raw = []) then []
  else if bool_decide (comma ∈ raw) then
    filter (fun piece => piece ≠ []) (strip <$> split_comma raw)
  else [strip raw].

(** ** TextPositionExtractor *)

(** One entry of [words_result] as the recognition service returns it:
    [{'words': ..., 'location': {'left', 'top', 'width', 'height'}}]. *)
Record location := Location { loc_left : Z; loc_top : Z; loc_width : Z; loc_height : Z }.
Record word_item := WordItem { words : str; word_location : location }.

(** A capture region [(x1, y1, x2, y2)]. *)
Record rect := Rect { x1 : Z; y1 : Z; x2 : Z; y2 : Z }.

Definition option_markers : list str :=
  [lit "A"; lit "B"; lit "C"; lit "D"; lit "E"; lit "F"; [dui]; [cuo]].

(** The test of the inner loop of [_extract_option_positions]. *)
Definition marker_matches (text marker : str) : bool :=
  bool_decide (text = marker)
  || startswith text (marker ++ [dot])
  || startswith text (marker ++ [ideographic_comma])
  || startswith text (marker ++ [fullwidth_rparen])
  || startswith text (marker ++ [rparen]).

(** Screen point of a word: region origin plus the centre of its box. *)
Definition option_center (region : rect) (loc : location) : Z * Z :=
  let center_x := x1 region + loc_left loc + loc_width loc / 2 in
  let center_y := y1 region + loc_top loc + loc_height loc / 2 in
  (center_x, center_y).

(** One iteration of [for item in words_result]: the inner [for marker]
    loop stops at the first marker that passes the test. *)
Definition option_step (region : rect) (option_positions : gmap str (Z * Z))
    (item : word_item) : gmap str (Z * Z) :=
  let text := strip (words item) in
  match List.find (marker_matches text) option_markers with
  | Some marker => <[marker := option_center region (word_location item)]> option_positions
  | None => option_positions
  end.

Definition _extract_option_positions (words_result : list word_item)
    (region : rect) : gmap str (Z * Z) :=
  fold_left (option_step region) words_result ∅.

(** The value stored per question id: [{'y': top}]. *)
Record question_pos := QuestionPos { y : Z }.

Definition is_rparen (c : N) : bool :=
  bool_decide (c = fullwidth_rparen) || bool_decide (c = rparen).
Definition is_lparen (c : N) : bool :=
  bool_decide (c = fullwidth_lparen) || bool_decide (c = lparen).
Definition is_delimiter (c : N) : bool :=
  bool_decide (c = dot) || bool_decide (c = ideographic_comma) || is_rparen c.

(** The five patterns of [_extract_question_numbers]; each returns group 1.
    After [strip] the text has no trailing newline, so [$] is the end of
    the text; the character after [\d+] is never a digit, so only the
    maximal run of digits can match. *)

(** [re.match(r'^(\d+)\.$', text)] *)
Definition re_format1 (text : str) : option str :=
  match span_digits text with
  | ((_ :: _) as ds, [c]) => if bool_decide (c = dot) then Some ds else None
  | _ => None
  end.

(** [re.match(r'^(\d+)、$', text)] *)
Definition re_format2 (text : str) : option str :=
  match span_digits text with
  | ((_ :: _) as ds, [c]) => if bool_decide (c = ideographic_comma) then Some ds else None
  | _ => None
  end.

(** [re.match(r'^[（(](\d+)[）)]$', text)] *)
Definition re_format3 (text : str) : option str :=
  match text with
  | o :: rest =>
      if is_lparen o then
        match span_digits rest with
        | ((_ :: _) as ds, [c]) => if is_rparen c then Some ds else None
        | _ => None
        end
      else None
  | [] => None
  end.

(** [re.match(r'^(\d+)[）)]$', text)] *)
Definition re_format4 (text : str) : option str :=
  match span_digits text with
  | ((_ :: _) as ds, [c]) => if is_rparen c then Some ds else None
  | _ => None
  end.

(** [re.match(r'^(\d+)[.、）)]', text)] *)
Definition re_format5 (text : str) : option str :=
  match span_digits text with
  | ((_ :: _) as ds, c :: _) => if is_delimiter c then Some ds else None
  | _ => None
  end.

(** One iteration of [for item in words_result] in
    [_extract_question_numbers]: the formats are tried in order, each hit
    ends the iteration; only the last format tests [num not in ...]. *)
Definition question_step (question_numbers : gmap Z question_pos)
    (item : word_item) : option (gmap Z question_pos) :=
  let text := strip (words item) in
  let location := word_location item in
  match re_format1 text with
  | Some g =>
      num ← int g;
      Some (<[num := QuestionPos (loc_top location)]> question_numbers)
  | None =>
  match re_format2 text with
  | Some g =>
      num ← int g;
      Some (<[num := QuestionPos (loc_top location)]> question_numbers)
  | None =>
  match re_format3 text with
  | Some g =>
      num ← int g;
      Some (<[num := QuestionPos (loc_top location)]> question_numbers)
  | None =>
  match re_format4 text with
  | Some g =>
      num ← int g;
      Some (<[num := QuestionPos (loc_top location)]> question_numbers)
  | None =>
  match re_format5 text with
  | Some g =>
      num ← int g;
      if bool_decide (num ∉ dom question_numbers)
      then Some (<[num := QuestionPos (loc_top location)]> question_numbers)
      else Some question_numbers
  | None => Some question_numbers
  end end end end end.

(** The [for item in words_result] loop from the map built so far. *)
Fixpoint question_steps (question_numbers : gmap Z question_pos)
    (words_result : list word_item) : option (gmap Z question_pos) :=
  match words_result with
  | [] => Some question_numbers
  | item :: words_result' =>
      question_numbers ← question_step question_numbers item;
      question_steps question_numbers words_result'
  end.

(** [_extract_question_numbers]; [None] stands for the [ValueError] of
    [int] escaping the function. *)
Definition _extract_question_numbers (words_result : list word_item)
    : option (gmap Z question_pos) :=
  question_steps ∅ words_result.

(** ** ScrollWindowTracker: [_calculate_scroll_distance] *)

(** Python's [max] over a sequence; [None] stands for the [ValueError] on
    an empty one. *)
Definition py_max (l : list Z) : option Z :=
  match l with
  | [] => None
  | v :: l' => Some (fold_left Z.max l' v)
  end.

(** [q['y'] for q in question_numbers.values()] *)
Definition question_ys (question_numbers : gmap Z question_pos) : list Z :=
  (fun kv => y kv.2) <$> map_to_list question_numbers.

(** [None] stands for an exception escaping the function. *)
Definition _calculate_scroll_distance (question_numbers : gmap Z question_pos)
    (region_height overlap : Z) : option Z :=
  if bool_decide (question_numbers = ∅) then Some (region_height - overlap)
  else
    last_question_y ← py_max (question_ys question_numbers);
    let scroll_distance := last_question_y - overlap in
    let min_scroll := region_height / 2 in
    let scroll_distance := Z.max scroll_distance min_scroll in
    let scroll_distance := Z.min scroll_distance (region_height - overlap) in
    Some scroll_distance.

(** The scroll distance as the specification defines it, over any vertical
    offset [lastY] that is the largest one in the map. *)
Definition is_last_y (question_numbers : gmap Z question_pos) (lastY : Z) : Prop :=
  (∃ id, y <$> question_numbers !! id = Some lastY) ∧
  (∀ id q, question_numbers !! id = Some q → y q ≤ lastY).

Definition chooseScrollDistance_spec (lastY viewHeight overlap : Z) : Z :=
  let distance := Z.max (lastY - overlap) (viewHeight / 2) in
  if decide (distance ≤ viewHeight - overlap) then distance else viewHeight - overlap.

(** ** Effects: exceptions, controller state and the trace *)

(** The two values of the [ocr_mode] setting. *)
Inductive recognition_mode := general_basic | accurate_basic.

Global Instance recognition_mode_eq_dec : EqDecision recognition_mode.
Proof. solve_decision. Defined.

(** The step named by the message of a re-raised [Exception(...)] in
    [_answer_single_question]. *)
Inductive stage := CaptureStage | OcrStage | AiStage | ClickStage | NextStage.

Inductive exn :=
| ScreenshotException
| OCRException
| AIException
| AutomationException
| TypeError
| ValueError
| OverflowError
| UnboundLocalError
| Exception (s : stage) (cause : exn).

(** Every distinct [self._log(...)] call of the controller. *)
Inductive log_msg :=
| LogStart                                   (* 开始答题... *)
| LogStartScroll                             (* 开始答题（滚动模式）... *)
| LogStopped                                 (* 答题已停止 *)
| LogFinished (n : Z)                        (* 答题完成！共完成 n 题 *)
| LogQuestionError (question_num : Z) (e : exn)   (* 第 n 题出错: e *)
| LogRunError (e : exn)                      (* 答题过程出错: e *)
| LogProcessing (question_num : Z)           (* 正在处理第 n 题... *)
| LogCaptured (question_num : Z)             (* 第 n 题：截图成功 *)
| LogOcrAccurate (question_num : Z)          (* OCR 识别成功（高精度模式） *)
| LogAutoOptions (question_num : Z) (labels : gset str)
| LogOcrBasic (question_num : Z)             (* OCR 识别成功（基础模式） *)
| LogContent (prefix : str)                  (* 题目内容：... *)
| LogAnswer (question_num : Z) (answer : str)
| LogParsed (question_num : Z) (answer_options : list str)
| LogClicked (question_num : Z) (option : str) (x y : Z)
| LogUnmarked (question_num : Z) (option : str)   (* 选项 o 未标记位置 *)
| LogNotFound (question_num : Z) (option : str)   (* 选项 o 未找到位置 *)
| LogNext (question_num : Z)                 (* 点击下一题按钮 *)
| LogDone (question_num : Z)                 (* 第 n 题：已完成 *)
| LogCapturedScroll (answered : nat) (total : Z)  (* 截图成功，已答 a/t 题 *)
| LogCaptureFailed (e : exn)                 (* 截图失败: e *)
| LogForceAccurate                           (* 警告：滚动模式需要使用高精度 OCR 模式 *)
| LogOcrFormat                               (* OCR 结果格式错误，需要高精度模式 *)
| LogOcrFailed (e : exn)                     (* OCR 识别失败: e *)
| LogQuestionNumbers (ids : list Z)          (* 识别到题号: [...] *)
| LogNoNumbers                               (* 未识别到题号，尝试滚动... *)
| LogAllAnswered                             (* 当前区域内的题目已全部回答... *)
| LogScrolled (distance clicks : Z).         (* 滚动页面：d 像素（c 次滚动） *)

(** Calls on the collaborators.  [Ask] and [Click] carry the number of the
    question being answered when the call is made. *)
Inductive event :=
| Log (m : log_msg)
| Capture                                    (* screenshot_manager.capture_region *)
| Recognize (mode : recognition_mode)                (* ocr_service.recognize_text *)
| Ask (question_num : Z) (question_text : str)   (* ai_service.analyze_question *)
| Click (question_num : Z) (x y : Z)         (* pyautogui.click *)
| MoveTo (x y : Z)                           (* pyautogui.moveTo *)
| Scroll (clicks : Z)                        (* pyautogui.scroll *)
| Sleep.                                     (* time.sleep *)

(** The result of running a piece of the controller from a given value of
    [answered_questions]: the effects it performed, each stamped with the
    value of [answered_questions] at that moment, the final value of the
    set, and a returned value or the exception that escaped. *)
Record run (A : Type) := Run {
  events : list (gset Z * event);
  final : gset Z;
  outcome : exn + A;
}.
Arguments Run {A} _ _ _.
Arguments events {A} _.
Arguments final {A} _.
Arguments outcome {A} _.

Definition M (A : Type) : Type := gset Z → run A.

Definition ret {A} (a : A) : M A := fun s => Run [] s (inr a).

Definition bind {A B} (m : M A) (k : A → M B) : M B := fun s =>
  let r := m s in
  match outcome r with
  | inl e => Run (events r) (final r) (inl e)
  | inr a => let r' := k a (final r) in
             Run (events r ++ events r') (final r') (outcome r')
  end.

Definition raise {A} (e : exn) : M A := fun s => Run [] s (inl e).

(** [try: m  except Exception as e: h e] *)
Definition try_except {A} (m : M A) (h : exn → M A) : M A := fun s =>
  let r := m s in
  match outcome r with
  | inl e => let r' := h e (final r) in
             Run (events r ++ events r') (final r') (outcome r')
  | inr _ => r
  end.

Definition emit (ev : event) : M unit := fun s => Run [(s, ev)] s (inr tt).

(** [self._log(message)] *)
Definition _log (m : log_msg) : M unit := emit (Log m).

(** Read [answered_questions]. *)
Definition get_answered : M (gset Z) := fun s => Run [] s (inr s).

(** [answered_questions.add(question_num)] *)
Definition add_answered (question_num : Z) : M unit := fun s =>
  Run [] ({[question_num]} ∪ s) (inr tt).

(** A value computed by a function that may raise. *)
Definition lift_option {A} (e : exn) (o : option A) : M A :=
  match o with Some a => ret a | None => raise e end.

Global Instance M_ret : MRet M := @ret.
Global Instance M_bind : MBind M := fun A B k m => bind m k.

(** ** The recognition service as the controller observes it *)

Inductive ocr_result :=
| OcrText (text : str)
| OcrDict (text : str) (words_result : list word_item).

(** ['\n'.join([item['words'] for item in words_result])] *)
Fixpoint join_lines (l : list str) : str :=
  match l with
  | [] => []
  | [w] => w
  | w :: l' => w ++ 10%N :: join_lines l'
  end.

(** [OCRService.recognize_text]: [response] is the service's reply, [None]
    when the request fails in any way (every failure is re-raised as
    [OCRException]).  The basic mode returns the text alone, the accurate
    mode a dict with the text and the positioned words. *)
Definition recognize_text (response : option (list word_item)) (mode : recognition_mode)
    : exn + ocr_result :=
  match response with
  | None => inl OCRException
  | Some words_result =>
      let text := join_lines (words <$> words_result) in
      match mode with
      | general_basic => inr (OcrText text)
      | accurate_basic => inr (OcrDict text words_result)
      end
  end.

(** ** What the collaborators answer *)

(** The calls inside the [try] block of [_scroll_page]. *)
Inductive scroll_call := MoveToCall | ScrollCall | SleepCall.

Global Instance scroll_call_eq_dec : EqDecision scroll_call.
Proof. solve_decision. Defined.

(** While one question is answered in the scroll loop. *)
Record question_env := QuestionEnv {
  q_stop : bool;                  (* [_stop_flag] read before the question *)
  q_oracle : exn + str;           (* [ai_service.analyze_question] *)
  q_click_raises : list bool;     (* per click, in order: does it raise? *)
  q_stop_after : bool;            (* [_stop_flag] read before the pause *)
}.

(** During one pass of the [while] loop of the scroll mode. *)
Record window_env := WindowEnv {
  w_stop : bool;                          (* [_stop_flag] at the top of the pass *)
  w_capture : option exn;                 (* [capture_region]: the exception, if any *)
  w_response : option (list word_item);   (* reply of the recognition service *)
  w_question : Z → question_env;          (* per question id of this window *)
  w_scroll_raises : option scroll_call;   (* the call of [_scroll_page] that fails *)
}.

(** During one iteration of the fixed-page loop. *)
Record iteration_env := IterationEnv {
  n_stop : bool;                          (* [_stop_flag] at the top of the iteration *)
  n_capture : option exn;
  n_response : option (list word_item);
  n_oracle : exn + str;
  n_click_raises : list bool;
  n_next_raises : bool;                   (* does the click on "next" raise? *)
  n_stop_after : bool;                    (* [_stop_flag] read before the pause *)
}.

(** ** Calls on the collaborators *)

Definition capture_region (r : option exn) : M unit :=
  emit Capture;;
  match r with Some e => raise e | None => mret tt end.

Definition call_recognize_text (response : option (list word_item))
    (mode : recognition_mode) : M ocr_result :=
  emit (Recognize mode);;
  match recognize_text response mode with
  | inl e => raise e
  | inr r => mret r
  end.

Definition analyze_question (question_num : Z) (question_text : str)
    (r : exn + str) : M str :=
  emit (Ask question_num question_text);;
  match r with inl e => raise e | inr answer => mret answer end.

(** [click_position(x, y)]: any failure of [pyautogui.click] is re-raised
    as [AutomationException]; the pause after the click follows. *)
Definition click_position (question_num : Z) (x y : Z) (raises : bool) : M unit :=
  emit (Click question_num x y);;
  if raises then raise AutomationException else emit Sleep.

(** [_scroll_page(distance, scroll_center, delay)]: [raises] is the call
    of the [try] block that fails, if one does; whatever it raises is
    re-raised as [AutomationException]. *)
Definition _scroll_page (distance : Z) (scroll_center : Z * Z)
    (raises : option scroll_call) : M unit :=
  emit (MoveTo scroll_center.1 scroll_center.2);;
  (if bool_decide (raises = Some MoveToCall) then raise AutomationException
   else mret tt);;
  let scroll_clicks := - (distance / 120) in
  if bool_decide (scroll_clicks ≠ 0) then
    emit (Scroll scroll_clicks);;
    (if bool_decide (raises = Some ScrollCall) then raise AutomationException
     else mret tt);;
    _log (LogScrolled distance scroll_clicks);;
    if bool_decide (raises = Some SleepCall) then raise AutomationException
    else emit Sleep
  else mret tt.

(** [time.sleep(seconds)] for a float: the exception it raises, if any.
    The length is converted to a 64-bit number of nanoseconds: NaN is a
    [ValueError], a length out of that range an [OverflowError], and a
    negative one a [ValueError]. *)
Definition sleep_error (seconds : float) : option exn :=
  if PrimFloat.is_nan seconds then Some ValueError
  else
    let ns := PrimFloat.mul seconds 1e9%float in
    if negb (PrimFloat.leb (-0x1p63)%float ns && PrimFloat.ltb ns 0x1p63%float)
    then Some OverflowError
    else if PrimFloat.ltb seconds PrimFloat.zero then Some ValueError
    else None.

Definition time_sleep (seconds : float) : M unit :=
  match sleep_error seconds with
  | Some e => raise e
  | None => emit Sleep
  end.

(** ** InteractionSession: the scroll loop *)

Section scroll_mode.

Variable region : rect.
Variable option_positions : option (gmap str (Z * Z)).
Variable total_questions : Z.
Variable scroll_overlap : Z.

(** [for option in answer_options: ...] of the scroll loop. *)
Fixpoint click_options (question_num : Z)
    (option_positions_temp : gmap str (Z * Z))
    (answer_options : list str) (raises : list bool) : M unit :=
  match answer_options with
  | [] => mret tt
  | option :: answer_options' =>
      match option_positions_temp !! option with
      | Some (x, y) =>
          click_position question_num x y (hd false raises);;
          _log (LogClicked question_num option x y);;
          click_options question_num option_positions_temp answer_options' (tl raises)
      | None =>
          _log (LogNotFound question_num option);;
          click_options question_num option_positions_temp answer_options' raises
      end
  end.

(** The [try] block answering one question. *)
Definition answer_question (question_num : Z) (question_text : str)
    (words_result : list word_item) (qe : question_env) : M unit :=
  let option_positions_temp :=
    match option_positions with
    | None => _extract_option_positions words_result region
    | Some positions => positions
    end in
  answer ← analyze_question question_num question_text (q_oracle qe);
  _log (LogAnswer question_num answer);;
  let answer_options := parse_answer answer in
  _log (LogParsed question_num answer_options);;
  click_options question_num option_positions_temp answer_options (q_click_raises qe);;
  add_answered question_num;;
  _log (LogDone question_num);;
  if negb (q_stop_after qe) then emit Sleep else mret tt.

(** [for question_num in unanswered_in_view: ...] *)
Fixpoint answer_questions (question_text : str) (words_result : list word_item)
    (env : Z → question_env) (unanswered_in_view : list Z) : M unit :=
  match unanswered_in_view with
  | [] => mret tt
  | question_num :: rest =>
      if q_stop (env question_num) then mret tt
      else
        answered_questions ← get_answered;
        if bool_decide (total_questions ≤ Z.of_nat (size answered_questions))
        then mret tt
        else
          try_except
            (answer_question question_num question_text words_result (env question_num))
            (fun e => _log (LogQuestionError question_num e);;
                      add_answered question_num);;
          answer_questions question_text words_result env rest
  end.

(** How a run of the [while] loop ended. *)
Inductive loop_end :=
| Reached        (* the loop condition became false *)
| Stopped        (* [break] on the stop flag *)
| Fatal          (* [break] after a capture or recognition failure *)
| Unfinished.    (* the loop is still running when the environment script ends *)

(** [sorted(question_numbers.keys())] *)
Definition sorted_keys (question_numbers : gmap Z question_pos) : list Z :=
  merge_sort Z.le (elements (dom question_numbers)).

(** Scroll by the distance computed from the visible questions. *)
Definition scroll_on (question_numbers : gmap Z question_pos)
    (region_height : Z) (scroll_center : Z * Z) (raises : option scroll_call)
    : M unit :=
  scroll_distance ← lift_option ValueError
    (_calculate_scroll_distance question_numbers region_height scroll_overlap);
  _scroll_page scroll_distance scroll_center raises.

(** The [while len(answered_questions) < total_questions] loop; every pass
    consumes one entry of [script]. *)
Fixpoint scroll_loop (ocr_mode : recognition_mode) (script : list window_env)
    : M loop_end :=
  let scroll_center := ((x1 region + x2 region) / 2, (y1 region + y2 region) / 2) in
  let region_height := y2 region - y1 region in
  answered_questions ← get_answered;
  if bool_decide (total_questions ≤ Z.of_nat (size answered_questions))
  then mret Reached
  else
  match script with
  | [] => mret Unfinished
  | w :: script' =>
  if w_stop w then _log LogStopped;; mret Stopped
  else
  (* 1. capture *)
  captured ← try_except
    (capture_region (w_capture w);;
     _log (LogCapturedScroll (size answered_questions) total_questions);;
     mret true)
    (fun e => _log (LogCaptureFailed e);; mret false);
  if negb captured then mret Fatal
  else
  (* 2. recognition, forced to the accurate mode *)
  ocr ← try_except
    ((if bool_decide (ocr_mode ≠ accurate_basic) then _log LogForceAccurate
      else mret tt);;
     ocr_result ← call_recognize_text (w_response w) accurate_basic;
     match ocr_result with
     | OcrText _ => _log LogOcrFormat;; mret None
     | OcrDict question_text words_result => mret (Some (question_text, words_result))
     end)
    (fun e => _log (LogOcrFailed e);; mret None);
  match ocr with
  | None => mret Fatal
  | Some (question_text, words_result) =>
  (* 3. question numbers *)
  question_numbers ← lift_option ValueError (_extract_question_numbers words_result);
  _log (LogQuestionNumbers (sorted_keys question_numbers));;
  if bool_decide (question_numbers = ∅) then
    _log LogNoNumbers;;
    let scroll_distance := region_height - scroll_overlap in
    _scroll_page scroll_distance scroll_center (w_scroll_raises w);;
    scroll_loop accurate_basic script'
  else
  (* 4. unanswered questions in view *)
  let current_questions := sorted_keys question_numbers in
  answered_questions ← get_answered;
  let unanswered_in_view :=
    filter (fun q => q ∉ answered_questions) current_questions in
  if bool_decide (unanswered_in_view = []) then
    _log LogAllAnswered;;
    scroll_on question_numbers region_height scroll_center (w_scroll_raises w);;
    scroll_loop accurate_basic script'
  else
  (* 5. answer them *)
  answer_questions question_text words_result (w_question w) unanswered_in_view;;
  (* 6. scroll on while questions remain *)
  answered_questions ← get_answered;
  (if bool_decide (Z.of_nat (size answered_questions) < total_questions) then
     scroll_on question_numbers region_height scroll_center (w_scroll_raises w)
   else mret tt);;
  scroll_loop accurate_basic script'
  end
  end.

(** [_answering_loop_scroll_mode]; [final_stop] is [_stop_flag] as read
    after the loop. *)
Definition _answering_loop_scroll_mode (ocr_mode : recognition_mode)
    (script : list window_env) (final_stop : bool) : M loop_end :=
  _log LogStartScroll;;
  r ← scroll_loop ocr_mode script;
  match r with
  | Unfinished => mret r
  | _ =>
      answered_questions ← get_answered;
      (if negb final_stop then _log (LogFinished (Z.of_nat (size answered_questions)))
       else mret tt);;
      mret r
  end.

End scroll_mode.

(** ** InteractionSession: the fixed-page loop *)

Section normal_mode.

Variable region : rect.
Variable option_positions : option (gmap str (Z * Z)).
Variable next_button_pos : option (Z * Z).
Variable interval : float.
Variable total_questions : Z.
Variable ocr_mode : recognition_mode.
Variable auto_next : bool.

(** [for option in answer_options: ...] of [_answer_single_question];
    [option in None] raises [TypeError]. *)
Fixpoint click_marked_options (question_num : Z)
    (option_positions : option (gmap str (Z * Z)))
    (answer_options : list str) (raises : list bool) : M unit :=
  match answer_options with
  | [] => mret tt
  | option :: answer_options' =>
      match option_positions with
      | None => raise TypeError
      | Some positions =>
          match positions !! option with
          | Some (x, y) =>
              click_position question_num x y (hd false raises);;
              _log (LogClicked question_num option x y);;
              click_marked_options question_num option_positions answer_options' (tl raises)
          | None =>
              _log (LogUnmarked question_num option);;
              click_marked_options question_num option_positions answer_options' raises
          end
      end
  end.

Definition _answer_single_question (question_num : Z) (is_last : bool)
    (env : iteration_env) : M unit :=
  _log (LogProcessing question_num);;
  (* 1. capture *)
  try_except
    (capture_region (n_capture env);; _log (LogCaptured question_num))
    (fun e => raise (Exception CaptureStage e));;
  (* 2. recognition *)
  '(question_text, option_positions) ← try_except
    (ocr_result ← call_recognize_text (n_response env) ocr_mode;
     '(question_text, option_positions) ←
       match ocr_result with
       | OcrDict question_text words_result =>
           _log (LogOcrAccurate question_num);;
           match option_positions with
           | None =>
               let option_positions := _extract_option_positions words_result region in
               _log (LogAutoOptions question_num (dom option_positions));;
               mret (question_text, Some option_positions)
           | Some _ => mret (question_text, option_positions)
           end
       | OcrText question_text =>
           _log (LogOcrBasic question_num);;
           mret (question_text, option_positions)
       end;
     _log (LogContent (take 50 question_text));;
     mret (question_text, option_positions))
    (fun e => raise (Exception OcrStage e));
  (* 3. oracle *)
  answer ← try_except
    (answer ← analyze_question question_num question_text (n_oracle env);
     _log (LogAnswer question_num answer);;
     mret answer)
    (fun e => raise (Exception AiStage e));
  (* 4. parse and click *)
  try_except
    (let answer_options := parse_answer answer in
     _log (LogParsed question_num answer_options);;
     click_marked_options question_num option_positions answer_options
       (n_click_raises env))
    (fun e => raise (Exception ClickStage e));;
  (* 5. the "next" button *)
  match next_button_pos with
  | Some (x, y) =>
      if negb is_last && negb auto_next then
        try_except
          (click_position question_num x y (n_next_raises env);;
           _log (LogNext question_num))
          (fun e => raise (Exception NextStage e))
      else mret tt
  | None => mret tt
  end.

(** [for i in range(1, total_questions + 1): ...] over the remaining
    values of [i]. *)
Fixpoint normal_loop (env : Z → iteration_env) (iterations : list Z) : M unit :=
  match iterations with
  | [] => mret tt
  | i :: rest =>
      if n_stop (env i) then _log LogStopped
      else
        let is_last := bool_decide (i = total_questions) in
        done ← try_except
          (_answer_single_question i is_last (env i);; mret true)
          (fun e => _log (LogQuestionError i e);; mret false);
        (if done && negb is_last && negb (n_stop_after (env i))
         then time_sleep interval
         else mret tt);;
        normal_loop env rest
  end.

(** [range(1, total_questions + 1)] *)
Definition question_range : list Z :=
  (fun k => Z.of_nat k) <$> seq 1 (Z.to_nat total_questions).

(** [_answering_loop_normal_mode]; [final_stop] is [_stop_flag] as read
    after the loop. *)
Definition _answering_loop_normal_mode (env : Z → iteration_env)
    (final_stop : bool) : M unit :=
  _log LogStart;;
  normal_loop env question_range;;
  if negb final_stop then _log (LogFinished total_questions) else mret tt.

End normal_mode.

(** ** The start handler of the main window *)

Module MainWindow.

Inductive answering_mode := fixed | scroll.

Global Instance answering_mode_eq_dec : EqDecision answering_mode.
Proof. solve_decision. Defined.

(** What [OptionMarker] hands back: [{'options': {...}, 'next': ...}]. *)
Record marked_positions := MarkedPositions {
  options : gmap str (Z * Z);
  next : option (Z * Z);
}.

(** The fields of [MainWindow] the handler reads.  A text variable holds
    what [int(...)] or [float(...)] makes of it, [None] for a
    [ValueError]. *)
Record main_window := {
  is_running : bool;
  config : gmap string str;               (* [config_manager._config] *)
  ocr_mode_var : recognition_mode;
  region : option rect;
  option_positions : option marked_positions;
  interval_var : option float;
  total_questions_var : option Z;
  model_var : str;
  auto_next_var : bool;
  answering_mode_var : answering_mode;
  scroll_overlap_var : option Z;
  scroll_delay_var : option float;
}.

(** The messages of the [配置错误] dialogs. *)
Inductive config_error :=
| NeedDeepSeekKey            (* 请先设置 DeepSeek API Key *)
| NeedBasicApiKey            (* 请先设置百度 OCR 基础模式 API Key *)
| NeedBasicSecretKey
| NeedAccurateApiKey
| NeedAccurateSecretKey
| NeedRegion                 (* 请先框选答题区域 *)
| NeedOptionPositions        (* 请先标记选项位置 *)
| BadInterval                (* 每题间隔设置无效 *)
| BadTotal                   (* 总题数设置无效 *)
| BadOverlap                 (* 重叠区域设置无效 *)
| BadDelay.                  (* 滚动延迟设置无效 *)

(** The arguments of [automation_controller.start_answering]. *)
Record start_args := StartArgs {
  a_region : rect;
  a_option_positions : option (gmap str (Z * Z));
  a_next_button_pos : option (Z * Z);
  a_interval : float;
  a_total_questions : Z;
  a_model : str;
  a_ocr_mode : recognition_mode;
  a_auto_next : bool;
  a_scroll_mode : bool;
  a_scroll_overlap : Z;
  a_scroll_delay : float;
}.

Inductive start_result :=
| ConfigurationError (msg : config_error)   (* [showerror("配置错误", msg)], return *)
| StartFailed (e : exn)                     (* the outer handler: [showerror("启动失败", ...)] *)
| StartAnswering (args : start_args)        (* the controller is started *)
| StopAnswering.                            (* the session was running: stop it *)

(** [not self.config_manager.get(key)] is false. *)
Definition configured (w : main_window) (key : string) : bool :=
  match config w !! key with
  | Some (_ :: _) => true
  | _ => false
  end.

(** Reading a local variable of the handler: a name assigned anywhere in
    a function body is local to it, and reading it before the assignment
    has run raises [UnboundLocalError]. *)
Definition read_local {A} (v : option A) : exn + A :=
  match v with
  | Some a => inr a
  | None => inl UnboundLocalError
  end.

(** [self.option_positions['options']] *)
Definition marked_options (p : option marked_positions)
    : exn + gmap str (Z * Z) :=
  match p with
  | Some p => inr (options p)
  | None => inl TypeError
  end.

Definition bind_exn {A B} (m : exn + A) (k : A → exn + B) : exn + B :=
  match m with
  | inl e => inl e
  | inr a => k a
  end.

(** The body of the [try] block of [_on_start_button_click]. *)
Definition start_checks (w : main_window) : exn + start_result :=
  (* [scroll_mode] is assigned only after the settings are read *)
  let scroll_mode : option bool := None in
  if negb (configured w "api_key") then inr (ConfigurationError NeedDeepSeekKey)
  else
  let ocr_mode := ocr_mode_var w in
  let missing_key :=
    match ocr_mode with
    | general_basic =>
        if negb (configured w "baidu_basic_api_key") then Some NeedBasicApiKey
        else if negb (configured w "baidu_basic_secret_key") then Some NeedBasicSecretKey
        else None
    | accurate_basic =>
        if negb (configured w "baidu_accurate_api_key") then Some NeedAccurateApiKey
        else if negb (configured w "baidu_accurate_secret_key") then Some NeedAccurateSecretKey
        else None
    end in
  match missing_key with
  | Some msg => inr (ConfigurationError msg)
  | None =>
  match region w with
  | None => inr (ConfigurationError NeedRegion)
  | Some region =>
  (* the option positions are required in the fixed mode with basic OCR *)
  bind_exn (read_local scroll_mode) (fun is_scroll =>
  if negb is_scroll
     && bool_decide (ocr_mode_var w = general_basic)
     && match option_positions w with
        | None => true
        | Some p => bool_decide (options p = ∅)
        end
  then inr (ConfigurationError NeedOptionPositions)
  else
  match interval_var w with
  | None => inr (ConfigurationError BadInterval)
  | Some interval =>
  if PrimFloat.ltb interval PrimFloat.zero then inr (ConfigurationError BadInterval)
  else
  match total_questions_var w with
  | None => inr (ConfigurationError BadTotal)
  | Some total_questions =>
  if bool_decide (total_questions ≤ 0) then inr (ConfigurationError BadTotal)
  else
  let model := model_var w in
  let ocr_mode := ocr_mode_var w in
  let auto_next := auto_next_var w in
  let answering_mode := answering_mode_var w in
  let scroll_mode := Some (bool_decide (answering_mode = scroll)) in
  bind_exn (read_local scroll_mode) (fun is_scroll =>
  let settings : config_error + (Z * float) :=
    if is_scroll then
      match scroll_overlap_var w with
      | None => inl BadOverlap
      | Some scroll_overlap =>
          if bool_decide (scroll_overlap < 0) then inl BadOverlap
          else
            match scroll_delay_var w with
            | None => inl BadDelay
            | Some scroll_delay =>
                if PrimFloat.ltb scroll_delay PrimFloat.zero then inl BadDelay
                else inr (scroll_overlap, scroll_delay)
            end
      end
    else inr (150, PrimFloat.one) in
  match settings with
  | inl msg => inr (ConfigurationError msg)
  | inr (scroll_overlap, scroll_delay) =>
  bind_exn
    (if is_scroll then inr (None, None)
     else match ocr_mode with
          | general_basic =>
              bind_exn (marked_options (option_positions w)) (fun positions =>
              inr (Some positions, mjoin ((next <$> option_positions w))))
          | accurate_basic => inr (None, None)
          end)
    (fun '(positions, next_button_pos) =>
  inr (StartAnswering {|
    a_region := region;
    a_option_positions := positions;
    a_next_button_pos := next_button_pos;
    a_interval := interval;
    a_total_questions := total_questions;
    a_model := model;
    a_ocr_mode := ocr_mode;
    a_auto_next := auto_next;
    a_scroll_mode := is_scroll;
    a_scroll_overlap := scroll_overlap;
    a_scroll_delay := scroll_delay |})) end) end end) end end.

(** [_on_start_button_click] *)
Definition _on_start_button_click (w : main_window) : start_result :=
  if negb (is_running w) then
    match start_checks w with
    | inr r => r
    | inl e => StartFailed e
    end
  else StopAnswering.

End MainWindow.

(** ** Which word matches which marker *)

(** The option label a word stands for: the first marker of the vocabulary
    that passes the test on the trimmed text. *)
Definition option_label (item : word_item) : option str :=
  List.find (marker_matches (strip (words item))) option_markers.

Definition labels (label : str) (item : word_item) : Prop :=
  option_label item = Some label.

Global Instance labels_dec label item : Decision (labels label item).
Proof. unfold labels. apply _. Defined.

(** The numbering shapes: the four exact ones ([N.], [N、], [(N)], [N)]) and
    the loose prefix. *)
Inductive question_shape := ExactShape | LooseShape.

Global Instance question_shape_eq_dec : EqDecision question_shape.
Proof. solve_decision. Defined.

(** The shape a word is matched in and group 1 of the match: the first of
    the five patterns, in the order the code tries them, that matches. *)
Definition question_match (item : word_item) : option (question_shape * str) :=
  let text := strip (words item) in
  match re_format1 text, re_format2 text, re_format3 text, re_format4 text,
        re_format5 text with
  | Some g, _, _, _, _ => Some (ExactShape, g)
  | None, Some g, _, _, _ => Some (ExactShape, g)
  | None, None, Some g, _, _ => Some (ExactShape, g)
  | None, None, None, Some g, _ => Some (ExactShape, g)
  | None, None, None, None, Some g => Some (LooseShape, g)
  | None, None, None, None, None => None
  end.

(** The shape and id a word is matched with. *)
Definition question_marker (item : word_item) : option (question_shape * Z) :=
  '(shape, g) ← question_match item;
  n ← int g;
  Some (shape, n).

(** The word is matched, and [int] raises on the digits of the match. *)
Definition overlong (item : word_item) : Prop :=
  match question_match item with
  | Some (_, g) => int g = None
  | None => False
  end.

Global Instance overlong_dec item : Decision (overlong item).
Proof. unfold overlong. destruct (question_match item) as [[? ?]|]; apply _. Defined.

(** The word is matched with id [n], by any shape. *)
Definition numbers (n : Z) (item : word_item) : Prop :=
  snd <$> question_marker item = Some n.

Global Instance numbers_dec n item : Decision (numbers n item).
Proof. unfold numbers. apply _. Defined.

Definition numbers_as (shape : question_shape) (n : Z) (item : word_item) : Prop :=
  question_marker item = Some (shape, n).

Global Instance numbers_as_dec shape n item : Decision (numbers_as shape n item).
Proof. unfold numbers_as. apply _. Defined.

Definition question_pos_of (item : word_item) : question_pos :=
  QuestionPos (loc_top (word_location item)).

(** A word with its box, for examples. *)
Definition word_at (text : str) (left top width height : Z) : word_item :=
  WordItem text (Location left top width height).

(** A word of [n] digits [1] followed by a dot. *)
Definition long_number (n : nat) : word_item :=
  word_at (replicate n 49%N ++ [dot]) 0 0 0 0.

(** ** Reasoning about runs *)

(** The stamps of a trace starting from [s] and ending in [s'] only grow:
    every stamp contains the one before it, the first contains [s], and
    [s'] contains the last. *)
Fixpoint chain (s : gset Z) (tr : list (gset Z * event)) (s' : gset Z) : Prop :=
  match tr with
  | [] => s ⊆ s'
  | (t, _) :: tr' => s ⊆ t ∧ chain t tr' s'
  end.

(** Running [m] from [s]: the answered set only grows along the trace,
    every effect satisfies [I] at the moment it is performed, and the
    outcome satisfies [Q] in the final state. *)
Definition wp {A} (I : gset Z → event → Prop) (m : M A)
    (Q : exn + A → gset Z → Prop) (s : gset Z) : Prop :=
  chain s (events (m s)) (final (m s)) ∧
  Forall (fun se => I se.1 se.2) (events (m s)) ∧
  Q (outcome (m s)) (final (m s)).

(** A run that comes after the effects [tr]. *)
Definition prepend {A} (tr : list (gset Z * event)) (r : run A) : run A :=
  Run (tr ++ events r) (final r) (outcome r).

(** No condition on the effects. *)
Definition any_effect : gset Z → event → Prop := fun _ _ => True.

(** The effects of a piece of code that leaves the answered set at [s0] and
    does not start an iteration of the fixed-page loop. *)
Definition inside_iteration (s0 : gset Z) (s : gset Z) (ev : event) : Prop :=
  s = s0 ∧ ∀ i, ev ≠ Log (LogProcessing i).

(** The question an effect belongs to, for a call on the oracle or a click. *)
Definition event_question (ev : event) : option Z :=
  match ev with
  | Ask question_num _ | Click question_num _ _ => Some question_num
  | _ => None
  end.

(** The answered set has not outgrown the target (a target below zero is
    never met by a set). *)
Definition within_target (total_questions : Z) (s : gset Z) : Prop :=
  0 ≤ total_questions → Z.of_nat (size s) ≤ total_questions.

Definition is_scroll (ev : event) : bool :=
  match ev with
  | Scroll _ => true
  | _ => false
  end.

(** The invariant of the scroll loop at every effect: the answered set has
    not outgrown the target, and an oracle call or a click is for a question
    that is not answered yet, made while the target is not reached. *)
Definition scroll_inv (total_questions : Z) (s : gset Z) (ev : event) : Prop :=
  within_target total_questions s ∧
  ∀ q, event_question ev = Some q → (q ∉ s) ∧ Z.of_nat (size s) < total_questions.

(** The iterations the fixed-page loop starts: those before the first one
    that finds the stop flag set. *)
Fixpoint before_stop (env : Z → iteration_env) (iterations : list Z) : list Z :=
  match iterations with
  | [] => []
  | i :: rest => if n_stop (env i) then [] else i :: before_stop env rest
  end.

(** The iterations a trace shows as started ([正在处理第 i 题...]). *)
Definition started (tr : list (gset Z * event)) : list Z :=
  omap (fun se => match se.2 with
                  | Log (LogProcessing i) => Some i
                  | _ => None
                  end) tr.

(** ** A sample window, for examples *)

(** Questions 1 and 2 at offsets 100 and 400 with options A and B; the
    oracle answers "A" and nothing fails. *)
Definition sample_window : window_env := {|
  w_stop := false;
  w_capture := None;
  w_response := Some [word_at (lit "1.") 20 100 30 20;
                      word_at (lit "A.") 40 150 30 20;
                      word_at (lit "B.") 40 200 30 20;
                      word_at (lit "2.") 20 400 30 20];
  w_question := fun _ => {| q_stop := false; q_oracle := inr (lit "A");
                            q_click_raises := []; q_stop_after := false |};
  w_scroll_raises := None;
|}.

Definition sample_region : rect := Rect 0 0 800 1000.

(** The same window with an oracle that fails on every question. *)
Definition failing_oracle_window : window_env := {|
  w_stop := false;
  w_capture := None;
  w_response := w_response sample_window;
  w_question := fun _ => {| q_stop := false; q_oracle := inl AIException;
                            q_click_raises := []; q_stop_after := false |};
  w_scroll_raises := None;
|}.

(** One iteration of the fixed-page loop: a question with options A and B,
    marked by hand; the oracle answers "B". *)
Definition sample_iteration : iteration_env := {|
  n_stop := false;
  n_capture := None;
  n_response := Some [word_at (lit "1.") 20 100 30 20;
                      word_at (lit "A.") 40 150 30 20;
                      word_at (lit "B.") 40 200 30 20];
  n_oracle := inr (lit "B");
  n_click_raises := [];
  n_next_raises := false;
  n_stop_after := false;
|}.

(** An iteration whose capture fails. *)
Definition failing_iteration : iteration_env := {|
  n_stop := false;
  n_capture := Some ScreenshotException;
  n_response := None;
  n_oracle := inl AIException;
  n_click_raises := [];
  n_next_raises := false;
  n_stop_after := false;
|}.

Definition sample_positions : gmap str (Z * Z) :=
  {[ lit "A" := (55, 160); lit "B" := (55, 210) ]}.

(** ** A main window ready to start, except for the option positions *)

(** Fixed-page mode, basic recognition, every credential and the region
    set, no option position marked. *)
Definition unmarked_window : MainWindow.main_window := {|
  MainWindow.is_running := false;
  MainWindow.config :=
    {[ "api_key"%string := lit "sk-0001";
       "baidu_basic_api_key"%string := lit "ak-0001";
       "baidu_basic_secret_key"%string := lit "secret" ]};
  MainWindow.ocr_mode_var := general_basic;
  MainWindow.region := Some (Rect 0 0 800 600);
  MainWindow.option_positions := None;
  MainWindow.interval_var := Some 3%float;
  MainWindow.total_questions_var := Some 10;
  MainWindow.model_var := lit "deepseek-chat";
  MainWindow.auto_next_var := false;
  MainWindow.answering_mode_var := MainWindow.fixed;
  MainWindow.scroll_overlap_var := Some 150;
  MainWindow.scroll_delay_var := Some 1%float;
|}.

(** The credentials the handler asks for, for the selected mode. *)
Definition credentials_set (w : MainWindow.main_window) : bool :=
  MainWindow.configured w "api_key"
  && match MainWindow.ocr_mode_var w with
     | general_basic =>
         MainWindow.configured w "baidu_basic_api_key"
         && MainWindow.configured w "baidu_basic_secret_key"
     | accurate_basic =>
         MainWindow.configured w "baidu_accurate_api_key"
         && MainWindow.configured w "baidu_accurate_secret_key"
     end.


(** ** The worker thread of [start_answering] *)

(** [try: m  finally: f]: [f] runs whatever [m] did; an exception of [f]
    replaces the outcome of [m]. *)
Definition try_finally {A} (m : M A) (f : M unit) : M A := fun s =>
  let r := m s in
  let r' := f (final r) in
  Run (events r ++ events r') (final r')
      (match outcome r' with
       | inl e => inl e
       | inr _ => outcome r
       end).

(** The function [answering_thread] that [start_answering] runs in a new
    thread, for the scroll mode and for the fixed-page mode.  The stop
    callback is a computation of the caller, [None] if none was given. *)
Definition answering_thread (scroll_mode : bool)
    (region : rect) (option_positions : option (gmap str (Z * Z)))
    (next_button_pos : option (Z * Z)) (interval : float) (total_questions : Z)
    (ocr_mode : recognition_mode) (auto_next : bool) (scroll_overlap : Z)
    (script : list window_env) (env : Z → iteration_env) (final_stop : bool)
    (stop_callback : option (M unit)) : M unit :=
  try_finally
    (try_except
       (if scroll_mode then
          _answering_loop_scroll_mode region option_positions total_questions
            scroll_overlap ocr_mode script final_stop;;
          mret tt
        else
          _answering_loop_normal_mode region option_positions next_button_pos
            interval total_questions ocr_mode auto_next env final_stop)
       (fun e => _log (LogRunError e)))
    (match stop_callback with
     | Some callback => callback
     | None => mret tt
     end).

(** The question ids recognised in the windows of a script. *)
Fixpoint script_ids (script : list window_env) : gset Z :=
  match script with
  | [] => ∅
  | w :: script' =>
      match w_response w with
      | Some words_result =>
          match _extract_question_numbers words_result with
          | Some question_numbers => dom question_numbers
          | None => ∅
          end
      | None => ∅
      end ∪ script_ids script'
  end.

(** [','.join(tokens)] *)
Fixpoint join_comma (tokens : list str) : str :=
  match tokens with
  | [] => []
  | [t] => t
  | t :: tokens' => t ++ comma :: join_comma tokens'
  end.

(** ** The answer oracle client: [AIService.analyze_question] *)

Module AIService.

Definition SUPPORTED_MODELS : list str :=
  [lit "deepseek-chat"; lit "deepseek-reasoner"].

(** [reply] is the content of the first choice of the API response, [None]
    when getting the client or the request fails in any way: every such
    failure is re-raised as [AIException]. *)
Definition analyze_question (question_text model : str) (reply : option str)
    : exn + str :=
  if bool_decide (question_text = []) then inl AIException
  else if bool_decide (model ∉ SUPPORTED_MODELS) then inl AIException
  else
    match reply with
    | None => inl AIException
    | Some content =>
        let answer := strip content in
        if bool_decide (answer = []) then inl AIException
        else inr answer
    end.

End AIService.

(** ** [ConfigManager.mask_api_key] *)

Module ConfigManager.

Definition star : N := 42%N.            (* '*' *)

Definition mask_api_key (key : str) : str :=
  if bool_decide (key = []) then []
  else
    let key_len := length key in
    if bool_decide (key_len ≤ 8)%nat then
      if bool_decide (key_len ≤ 4)%nat then replicate key_len star
      else take 4 key ++ replicate (key_len - 4) star
    else
      let prefix := take 4 key in
      let suffix := drop (key_len - 4) key in
      let middle_len := (key_len - 8)%nat in
      prefix ++ replicate middle_len star ++ suffix.

End ConfigManager.

(** ** [RegionSelector]: dragging out the capture region *)

Module RegionSelector.

(** The press point; unset until the first press. *)
Record selector := Selector { start_x : option Z; start_y : option Z }.

Definition init : selector := Selector None None.

Definition _on_press (sel : selector) (x y : Z) : selector :=
  Selector (Some x) (Some y).

(** [_on_release]: the region handed to the callback; [min(None, end_x)]
    raises [TypeError] when nothing was pressed. *)
Definition _on_release (sel : selector) (end_x end_y : Z) : exn + rect :=
  match start_x sel, start_y sel with
  | Some sx, Some sy =>
      inr (Rect (Z.min sx end_x) (Z.min sy end_y) (Z.max sx end_x) (Z.max sy end_y))
  | _, _ => inl TypeError
  end.

End RegionSelector.

(** ** [OptionMarker]: marking the option positions by hand *)

Module OptionMarker.

Definition next_label : str := [19979; 19968; 39064]%N.   (* '下一题' *)

Definition marking_sequence : list str :=
  [lit "A"; lit "B"; lit "C"; lit "D"; next_label].

Record marker := Marker {
  positions : MainWindow.marked_positions;
  current_index : nat;
}.

Definition init : marker :=
  Marker (MainWindow.MarkedPositions ∅ None) 0.

(** What a handler leaves: the marker, and the positions handed to the
    callback if the handler finished the marking. *)
Definition advance (m : marker) : marker * option MainWindow.marked_positions :=
  let m := Marker (positions m) (S (current_index m)) in
  if bool_decide (current_index m < length marking_sequence)%nat
  then (m, None)
  else (m, Some (positions m)).

(** [_on_click]; [None] stands for the [IndexError] of
    [marking_sequence[current_index]]. *)
Definition _on_click (m : marker) (x y : Z)
    : option (marker * option MainWindow.marked_positions) :=
  current_option ← marking_sequence !! current_index m;
  let positions :=
    if bool_decide (current_option = next_label)
    then MainWindow.MarkedPositions (MainWindow.options (positions m)) (Some (x, y))
    else MainWindow.MarkedPositions
           (<[current_option := (x, y)]> (MainWindow.options (positions m)))
           (MainWindow.next (positions m)) in
  Some (advance (Marker positions (current_index m))).

(** [_on_cancel] (the Escape key) *)
Definition _on_cancel (m : marker) : marker * option MainWindow.marked_positions :=
  advance m.

Inductive marker_event := MouseClick (x y : Z) | Escape.

(** Where the marking stands after some events. *)
Inductive marking :=
| Finished (result : MainWindow.marked_positions)   (* [callback(self.positions)] *)
| Pending (m : marker)                              (* the window is still open *)
| IndexError.                                       (* [marking_sequence[current_index]] *)

(** The events the window receives; [_finish] destroys the window, so
    nothing is delivered after it. *)
Fixpoint mark (m : marker) (evs : list marker_event) : marking :=
  match evs with
  | [] => Pending m
  | MouseClick x y :: evs' =>
      match _on_click m x y with
      | None => IndexError
      | Some (_, Some result) => Finished result
      | Some (m', None) => mark m' evs'
      end
  | Escape :: evs' =>
      match _on_cancel m with
      | (_, Some result) => Finished result
      | (m', None) => mark m' evs'
      end
  end.

(** The point an event gives to the option it is about. *)
Definition clicked (ev : marker_event) : option (Z * Z) :=
  match ev with
  | MouseClick x y => Some (x, y)
  | Escape => None
  end.

End OptionMarker.

(** The positions the marker is expected to hand over after the events
    [evs]: the clicks among the first four events under A, B, C, D, and the
    fifth event as the "next" position. *)
Definition marked_by (evs : list OptionMarker.marker_event) : MainWindow.marked_positions :=
  MainWindow.MarkedPositions
    (list_to_map
       (omap (fun '(label, ev) => pair label <$> OptionMarker.clicked ev)
             (zip [lit "A"; lit "B"; lit "C"; lit "D"] evs)))
    (evs !! 4%nat ≫= OptionMarker.clicked).

(** A window in which no question marker is legible. *)
Definition blank_window : window_env := {|
  w_stop := false;
  w_capture := None;
  w_response := Some [word_at (lit "loading") 20 100 80 20];
  w_question := w_question sample_window;
  w_scroll_raises := None;
|}.

(** The same window, with a wheel that fails. *)
Definition stuck_window : window_env := {|
  w_stop := false;
  w_capture := None;
  w_response := w_response blank_window;
  w_question := w_question sample_window;
  w_scroll_raises := Some ScrollCall;
|}.

(** The effects of a pass up to the recognition call. *)
Definition pass_prefix (ocr_mode : recognition_mode) (total_questions : Z)
    (s : gset Z) : list (gset Z * event) :=
  [(s, Capture); (s, Log (LogCapturedScroll (size s) total_questions))]
  ++ (if bool_decide (ocr_mode ≠ accurate_basic) then [(s, Log LogForceAccurate)] else [])
  ++ [(s, Recognize accurate_basic)].

(** The calls on the oracle and the clicks are made for ids of [ids]. *)
Definition recognised (ids : gset Z) : gset Z → event → Prop :=
  fun _ ev => ∀ q, event_question ev = Some q → q ∈ ids.

(** The recognition of the window holds a number that [int] refuses. *)
Definition overlong_window (w : window_env) : Prop :=
  ∃ words_result item,
    w_response w = Some words_result ∧ item ∈ words_result ∧ overlong item.

(** The only exceptions that leave the scroll loop: that of a failing call
    of [_scroll_page], and that of [int] on an over-long question number. *)
Definition loop_failure (script : list window_env) (r : exn + loop_end) : Prop :=
  ∀ e, r = inl e →
       (e = AutomationException ∧ ∃ w, w ∈ script ∧ is_Some (w_scroll_raises w)) ∨
       (e = ValueError ∧ ∃ w, w ∈ script ∧ overlong_window w).


(** A window whose recognition holds a question number of 4301 digits. *)
Definition long_window : window_env := {|
  w_stop := false;
  w_capture := None;
  w_response := Some [long_number 4301];
  w_question := w_question sample_window;
  w_scroll_raises := None;
|}.

(** * Properties *)

(** ** Strings *)

Section strings.
Implicit Types (s p : str) (c : N).

Lemma comma_not_space : isspace comma = false.
Proof. reflexivity. Qed.

Lemma isspace_not_comma c : isspace c = true → c ≠ comma.
Proof. intros H ->. discriminate H. Qed.

Lemma lstrip_app_space s c :
  isspace c = true →
  lstrip (s ++ [c]) = match lstrip s with [] => [] | _ => lstrip s ++ [c] end.
Proof.
  intros Hc. induction s as [|a s IH]; simpl.
  - by rewrite Hc.
  - destruct (isspace a); [exact IH | done].
Qed.

Lemma rstrip_snoc s c :
  rstrip (s ++ [c]) = if isspace c then rstrip s else s ++ [c].
Proof.
  unfold rstrip. rewrite reverse_app, reverse_singleton. simpl.
  destruct (isspace c); [done|]. by rewrite reverse_cons, reverse_involutive.
Qed.

Lemma rstrip_nil : rstrip [] = [].
Proof. reflexivity. Qed.

Lemma strip_cons_space s c : isspace c = true → strip (c :: s) = strip s.
Proof. intros Hc. unfold strip. simpl. by rewrite Hc. Qed.

Lemma strip_snoc_space s c : isspace c = true → strip (s ++ [c]) = strip s.
Proof.
  intros Hc. unfold strip. rewrite (lstrip_app_space _ _ Hc).
  destruct (lstrip s) as [|a l] eqn:E; [done|].
  by rewrite rstrip_snoc, Hc.
Qed.

Lemma split_comma_nonempty s : split_comma s ≠ [].
Proof. destruct s as [|c s]; simpl; [done|]. case_bool_decide; [done|]. by destruct (split_comma s). Qed.

Lemma split_comma_cons s c :
  c ≠ comma →
  ∃ p ps, split_comma s = p :: ps ∧ split_comma (c :: s) = (c :: p) :: ps.
Proof.
  intros Hc. simpl. rewrite bool_decide_eq_false_2 by done.
  destruct (split_comma s) as [|p ps] eqn:E; [by destruct (split_comma_nonempty s)|].
  by exists p, ps.
Qed.

Lemma split_comma_snoc s c :
  c ≠ comma →
  ∃ ps p, split_comma s = ps ++ [p] ∧ split_comma (s ++ [c]) = ps ++ [p ++ [c]].
Proof.
  intros Hc. induction s as [|a s (ps & p & E1 & E2)]; simpl.
  - rewrite bool_decide_eq_false_2 by done. by exists [], [].
  - case_bool_decide.
    + exists ([] :: ps), p. by rewrite E1, E2.
    + rewrite E1, E2. destruct ps as [|q ps]; simpl.
      * by exists [], (a :: p).
      * by exists ((a :: q) :: ps), p.
Qed.

Lemma strip_split_lstrip s :
  strip <$> split_comma (lstrip s) = strip <$> split_comma s.
Proof.
  induction s as [|c s IH]; [done|]. simpl lstrip.
  destruct (isspace c) eqn:Hc; [|done].
  destruct (split_comma_cons s c (isspace_not_comma _ Hc)) as (p & ps & E1 & E2).
  rewrite IH, E1, E2. simpl. by rewrite strip_cons_space.
Qed.

Lemma strip_split_rstrip s :
  strip <$> split_comma (rstrip s) = strip <$> split_comma s.
Proof.
  induction s as [|c s IH] using rev_ind; [done|].
  rewrite rstrip_snoc. destruct (isspace c) eqn:Hc; [|done].
  destruct (split_comma_snoc s c (isspace_not_comma _ Hc)) as (ps & p & E1 & E2).
  rewrite IH, E1, E2, !fmap_app. simpl. by rewrite strip_snoc_space.
Qed.

Lemma strip_split_strip s :
  strip <$> split_comma (strip s) = strip <$> split_comma s.
Proof. unfold strip at 2. by rewrite strip_split_rstrip, strip_split_lstrip. Qed.

Lemma comma_in_lstrip s : comma ∈ lstrip s ↔ comma ∈ s.
Proof.
  induction s as [|c s IH]; [done|]. simpl.
  destruct (isspace c) eqn:Hc; [|done].
  rewrite IH, elem_of_cons. pose proof (isspace_not_comma _ Hc) as Hne.
  split; [by right|]. intros [E|?]; [congruence|done].
Qed.

Lemma comma_in_rstrip s : comma ∈ rstrip s ↔ comma ∈ s.
Proof.
  unfold rstrip. by rewrite elem_of_reverse, comma_in_lstrip, elem_of_reverse.
Qed.

Lemma comma_in_strip s : comma ∈ strip s ↔ comma ∈ s.
Proof. unfold strip. by rewrite comma_in_rstrip, comma_in_lstrip. Qed.

End strings.

(** ** AnswerParser *)

Example parse_answer_multi : parse_answer (lit "A,C") = [lit "A"; lit "C"].
Proof. reflexivity. Qed.

Example parse_answer_spaced : parse_answer (lit " a , c ") = [lit "a"; lit "c"].
Proof. reflexivity. Qed.

Example parse_answer_empty : parse_answer (lit "") = [].
Proof. reflexivity. Qed.

Example parse_answer_judgement : parse_answer [dui] = [[dui]].
Proof. reflexivity. Qed.

(** C5: the claim fails on a blank answer.  The emptiness test of
    [parse_answer] comes before the trimming, so the answer of two spaces
    comes back as one empty token rather than as no token, although the
    comma branch of the same function drops the empty tokens it finds. *)
Theorem parse_answer_blank_not_empty :
  parse_answer (lit "  ") = [[]] ∧
  parse_answer (lit " , ") = [] ∧
  ¬ (∀ answer : str, strip answer = [] → parse_answer answer = []).
Proof.
  split; [reflexivity|]. split; [reflexivity|].
  intros H. by specialize (H (lit "  ") eq_refl).
Qed.

(** What [parse_answer] computes: the empty string gives no token; an
    answer containing a comma gives its comma-separated pieces, each
    trimmed, without the empty ones; every other answer, a blank one
    included, gives the one-element list of the trimmed answer. *)
Lemma parse_answer_cases (answer : str) :
  parse_answer answer =
    if bool_decide (answer = []) then []
    else if bool_decide (comma ∈ answer)
         then filter (fun piece => piece ≠ []) (strip <$> split_comma answer)
         else [strip answer].
Proof.
  unfold parse_answer. case_bool_decide; [done|].
  rewrite (bool_decide_ext _ _ (comma_in_strip answer)).
  case_bool_decide; [|done]. by rewrite strip_split_strip.
Qed.

(** ** ScrollWindowTracker *)

Lemma fold_max_spec (l : list Z) (v : Z) :
  let m := fold_left Z.max l v in
  m ∈ v :: l ∧ ∀ x, x ∈ v :: l → x ≤ m.
Proof.
  revert v. induction l as [|a l IH]; intros v; simpl.
  - split; [left|]. intros x ->%list_elem_of_singleton. lia.
  - destruct (IH (Z.max v a)) as [Hin Hub]. split.
    + apply elem_of_cons in Hin as [E|Hin]; [|by do 2 right].
      rewrite E. destruct (Z.max_spec v a) as [[_ ->]|[_ ->]]; [right|]; left.
    + intros x Hx. pose proof (Hub (Z.max v a) ltac:(left)).
      apply elem_of_cons in Hx as [->|Hx]; [lia|].
      apply elem_of_cons in Hx as [->|Hx]; [lia|]. apply Hub. by right.
Qed.

Lemma py_max_spec (l : list Z) :
  l ≠ [] → ∃ m, py_max l = Some m ∧ m ∈ l ∧ ∀ x, x ∈ l → x ≤ m.
Proof.
  destruct l as [|v l]; [done|]. intros _. eexists. split; [done|].
  apply fold_max_spec.
Qed.

Lemma elem_of_question_ys (question_numbers : gmap Z question_pos) (v : Z) :
  v ∈ question_ys question_numbers ↔
  ∃ id q, question_numbers !! id = Some q ∧ y q = v.
Proof.
  unfold question_ys. rewrite list_elem_of_fmap. split.
  - intros ([id q] & -> & Hin%elem_of_map_to_list). by exists id, q.
  - intros (id & q & Hq & <-). exists (id, q). by rewrite elem_of_map_to_list.
Qed.

Lemma last_question_y_spec (question_numbers : gmap Z question_pos) :
  question_numbers ≠ ∅ →
  ∃ lastY, py_max (question_ys question_numbers) = Some lastY ∧
           is_last_y question_numbers lastY.
Proof.
  intros Hne. destruct (py_max_spec (question_ys question_numbers)) as (m & Hm & Hin & Hub).
  - unfold question_ys. intros E%fmap_nil_inv. by apply map_to_list_empty_iff in E.
  - exists m. split; [done|]. split.
    + apply elem_of_question_ys in Hin as (id & q & Hq & <-). exists id. by rewrite Hq.
    + intros id q Hq. apply Hub, elem_of_question_ys. by exists id, q.
Qed.

Lemma chooseScrollDistance_spec_min (lastY h o : Z) :
  chooseScrollDistance_spec lastY h o = Z.min (Z.max (lastY - o) (h / 2)) (h - o).
Proof. unfold chooseScrollDistance_spec. simpl. case_decide; lia. Qed.

(** The function never raises: [max] is only reached on a non-empty map. *)
Lemma calculate_scroll_distance_total (question_numbers : gmap Z question_pos) (h o : Z) :
  is_Some (_calculate_scroll_distance question_numbers h o).
Proof.
  unfold _calculate_scroll_distance. case_bool_decide as Hne; [by eexists|].
  destruct (last_question_y_spec _ Hne) as (lastY & -> & _). by eexists.
Qed.

(** C1: with [0 ≤ o < h], an empty map gives exactly [h - o]; a non-empty
    one gives [max(lastY - o, h/2)] clamped to at most [h - o], where
    [lastY] is the largest vertical offset in the map. *)
Theorem calculate_scroll_distance_correct
    (question_numbers : gmap Z question_pos) (h o : Z) :
  0 ≤ o < h →
  (question_numbers = ∅ ∧
     _calculate_scroll_distance question_numbers h o = Some (h - o)) ∨
  (question_numbers ≠ ∅ ∧
     ∃ lastY, is_last_y question_numbers lastY ∧
       _calculate_scroll_distance question_numbers h o
         = Some (chooseScrollDistance_spec lastY h o) ∧
       chooseScrollDistance_spec lastY h o ≤ h - o).
Proof.
  intros _. unfold _calculate_scroll_distance.
  case_bool_decide as Hne; [by left|right]. split; [done|].
  destruct (last_question_y_spec _ Hne) as (lastY & -> & Hlast).
  exists lastY. rewrite chooseScrollDistance_spec_min. split_and!; [done|done|lia].
Qed.

Lemma calculate_scroll_distance_correct_witness :
  let qn : gmap Z question_pos := {[ 1 := QuestionPos 100; 2 := QuestionPos 400 ]} in
  0 ≤ 150 < 1000 ∧
  ((qn = ∅ ∧ _calculate_scroll_distance qn 1000 150 = Some (1000 - 150)) ∨
   (qn ≠ ∅ ∧
     ∃ lastY, is_last_y qn lastY ∧
       _calculate_scroll_distance qn 1000 150
         = Some (chooseScrollDistance_spec lastY 1000 150) ∧
       chooseScrollDistance_spec lastY 1000 150 ≤ 1000 - 150)).
Proof.
  intros qn. split; [lia|].
  apply (calculate_scroll_distance_correct qn 1000 150). lia.
Defined.

Example scroll_distance_two_questions :
  _calculate_scroll_distance {[ 1 := QuestionPos 100; 2 := QuestionPos 400 ]} 1000 150
  = Some 500.
Proof. vm_compute. reflexivity. Qed.

(** C2, as stated, fails: when the overlap exceeds half the height, the
    final clamp to [h - o] brings the distance below [h/2]. *)
Lemma scroll_distance_below_half :
  ¬ (∀ (question_numbers : gmap Z question_pos) (h o d : Z),
       0 ≤ o < h → question_numbers ≠ ∅ →
       _calculate_scroll_distance question_numbers h o = Some d →
       d ≤ h - o ∧ h / 2 ≤ d).
Proof.
  intros H.
  destruct (H {[ 1 := QuestionPos 0 ]} 10 8 2) as [_ Hlow]; [lia|done|by vm_compute|].
  revert Hlow. by vm_compute.
Qed.

(** C2, amended: for a non-empty map and [0 ≤ o < h] the distance is never
    greater than [h - o] and never less than the smaller of [h/2] and
    [h - o]; it is at least [h/2] whenever [h/2 ≤ h - o]. *)
Theorem scroll_distance_bounds
    (question_numbers : gmap Z question_pos) (h o : Z) :
  0 ≤ o < h → question_numbers ≠ ∅ →
  ∃ d, _calculate_scroll_distance question_numbers h o = Some d ∧
       d ≤ h - o ∧ Z.min (h / 2) (h - o) ≤ d ∧ (h / 2 ≤ h - o → h / 2 ≤ d).
Proof.
  intros _ Hne. unfold _calculate_scroll_distance.
  rewrite bool_decide_eq_false_2 by done.
  destruct (last_question_y_spec _ Hne) as (lastY & -> & _).
  eexists. split; [done|]. simpl. lia.
Qed.

Lemma scroll_distance_bounds_witness :
  let qn : gmap Z question_pos := {[ 1 := QuestionPos 0 ]} in
  0 ≤ 8 < 10 ∧ qn ≠ ∅ ∧
  ∃ d, _calculate_scroll_distance qn 10 8 = Some d ∧
       d ≤ 10 - 8 ∧ Z.min (10 / 2) (10 - 8) ≤ d ∧ (10 / 2 ≤ 10 - 8 → 10 / 2 ≤ d).
Proof.
  intros qn. split; [lia|]. split; [done|].
  apply (scroll_distance_bounds qn 10 8); [lia|done].
Defined.


(** ** TextPositionExtractor *)

Example option_markers_example :
  _extract_option_positions
    [word_at (lit "A.") 10 20 30 40; word_at (lit "B" ++ [ideographic_comma]) 10 80 30 40]
    (Rect 100 200 900 800)
  = {[ lit "A" := (125, 240); lit "B" := (125, 300) ]}.
Proof. by vm_compute. Qed.

Example question_markers_example :
  _extract_question_numbers [word_at (lit "1.") 0 7 0 0]
    = Some {[ 1 := QuestionPos 7 ]} ∧
  _extract_question_numbers [word_at (lit "1" ++ [ideographic_comma]) 0 7 0 0]
    = Some {[ 1 := QuestionPos 7 ]} ∧
  _extract_question_numbers [word_at (lit "(1)") 0 7 0 0]
    = Some {[ 1 := QuestionPos 7 ]} ∧
  _extract_question_numbers [word_at (lit "1)") 0 7 0 0]
    = Some {[ 1 := QuestionPos 7 ]} ∧
  _extract_question_numbers [word_at (lit "1.choose the best answer") 0 7 0 0]
    = Some {[ 1 := QuestionPos 7 ]}.
Proof. split_and!; by vm_compute. Qed.

(** A number of 4300 digits is read, one of 4301 digits raises. *)
Example question_markers_long :
  is_Some (int (replicate 4300 49%N)) ∧
  int (replicate 4301 49%N) = None ∧
  _extract_question_numbers [long_number 4301] = None.
Proof.
  split; [|split; by vm_compute].
  unfold int. rewrite bool_decide_eq_false_2; [by eexists|]. by vm_compute.
Qed.

Lemma last_filter_cons {A} (P : A → Prop) `{!∀ x, Decision (P x)} (x : A) (l : list A) :
  last (filter P (x :: l)) =
    match last (filter P l) with
    | Some z => Some z
    | None => if decide (P x) then Some x else None
    end.
Proof.
  rewrite filter_cons. case_decide; [|by destruct (last _)].
  by rewrite last_cons.
Qed.

Lemma option_step_lookup (region : rect) (m : gmap str (Z * Z))
    (item : word_item) (label : str) :
  option_step region m item !! label =
    if decide (labels label item)
    then Some (option_center region (word_location item))
    else m !! label.
Proof.
  unfold option_step.
  change (List.find _ option_markers) with (option_label item).
  destruct (decide (labels label item)) as [Hl|Hl]; unfold labels in Hl.
  - by rewrite Hl, lookup_insert_eq.
  - destruct (option_label item) as [marker|]; [|done].
    rewrite lookup_insert_ne; [done|congruence].
Qed.

Lemma extract_option_positions_from (region : rect) (ws : list word_item)
    (m : gmap str (Z * Z)) (label : str) :
  fold_left (option_step region) ws m !! label =
    match last (filter (labels label) ws) with
    | Some item => Some (option_center region (word_location item))
    | None => m !! label
    end.
Proof.
  revert m. induction ws as [|w ws IH]; intros m; [done|].
  simpl fold_left. rewrite IH, last_filter_cons, option_step_lookup.
  destruct (last _); [done|]. by case_decide.
Qed.

(** C4, as stated, fails: a later word with the same label replaces the
    point of the first one. *)
Lemma option_first_match_not_kept :
  ¬ (∀ (words_result : list word_item) (region : rect) (label : str) (item : word_item),
       head (filter (labels label) words_result) = Some item →
       _extract_option_positions words_result region !! label
         = Some (option_center region (word_location item))).
Proof.
  intros H.
  specialize (H [word_at (lit "A") 0 0 10 10; word_at (lit "A.") 100 100 10 10]
                (Rect 0 0 800 600) (lit "A") (word_at (lit "A") 0 0 10 10) eq_refl).
  revert H. by vm_compute.
Qed.

(** C4, amended: the point kept for a label is that of the last word of
    the capture that matches it (an earlier match is overwritten), and it
    equals the region origin plus the centre of that word's box; a label no
    word matches has no point. *)
Theorem extract_option_positions_last_match
    (words_result : list word_item) (region : rect) (label : str) :
  _extract_option_positions words_result region !! label =
    (fun item =>
       (x1 region + loc_left (word_location item) + loc_width (word_location item) / 2,
        y1 region + loc_top (word_location item) + loc_height (word_location item) / 2))
      <$> last (filter (labels label) words_result).
Proof.
  unfold _extract_option_positions. rewrite extract_option_positions_from.
  by destruct (last _).
Qed.

Lemma question_step_marker (m : gmap Z question_pos) (item : word_item) :
  question_step m item =
    match question_match item with
    | Some (shape, g) =>
        n ← int g;
        Some (match shape with
              | ExactShape => <[n := question_pos_of item]> m
              | LooseShape =>
                  if decide (m !! n = None) then <[n := question_pos_of item]> m else m
              end)
    | None => Some m
    end.
Proof.
  unfold question_step, question_match, question_pos_of.
  destruct (re_format1 _); [done|]. destruct (re_format2 _); [done|].
  destruct (re_format3 _); [done|]. destruct (re_format4 _); [done|].
  destruct (re_format5 _) as [g|]; [|done].
  destruct (int g) as [n|]; [|done]. cbn.
  case_bool_decide as Hdom; case_decide as Hm; [done| | |done].
  - by apply not_elem_of_dom in Hdom.
  - by apply not_elem_of_dom in Hm.
Qed.

Lemma question_step_None (m : gmap Z question_pos) (item : word_item) :
  question_step m item = None ↔ overlong item.
Proof.
  rewrite question_step_marker. unfold overlong.
  destruct (question_match item) as [[shape g]|]; [|done].
  by destruct (int g).
Qed.

Lemma question_step_lookup (m m' : gmap Z question_pos) (item : word_item) (n : Z) :
  question_step m item = Some m' →
  m' !! n =
    if decide (numbers_as ExactShape n item) then Some (question_pos_of item)
    else if decide (numbers_as LooseShape n item)
         then match m !! n with Some q => Some q | None => Some (question_pos_of item) end
         else m !! n.
Proof.
  rewrite question_step_marker. intros Hstep.
  destruct (decide (numbers_as ExactShape n item)) as [He|He];
    destruct (decide (numbers_as LooseShape n item)) as [Hl|Hl];
    unfold numbers_as, question_marker in *;
    destruct (question_match item) as [[shape g]|]; cbn in *; simplify_eq;
    try (destruct (int g) as [k|]; cbn in *; simplify_eq).
  all: try (by rewrite lookup_insert_eq).
  all: try done.
  - case_decide as Hm; [by rewrite lookup_insert_eq, Hm|by destruct (m !! n)].
  - destruct shape.
    + rewrite lookup_insert_ne; [done|congruence].
    + case_decide; [|done]. rewrite lookup_insert_ne; [done|congruence].
Qed.

Lemma numbers_as_exclusive (n : Z) (item : word_item) :
  numbers_as ExactShape n item → numbers_as LooseShape n item → False.
Proof. unfold numbers_as. congruence. Qed.

Lemma question_steps_None (ws : list word_item) (m : gmap Z question_pos) :
  question_steps m ws = None ↔ ∃ item, item ∈ ws ∧ overlong item.
Proof.
  revert m. induction ws as [|w ws IH]; intros m; cbn [question_steps].
  { split; [done|]. by intros (? & ?%elem_of_nil & _). }
  destruct (question_step m w) as [m1|] eqn:E; cbn.
  - rewrite IH. split.
    + intros (item & Hin & Hover). exists item. split; [by right|done].
    + intros (item & [->|Hin]%elem_of_cons & Hover); [|by exists item].
      apply (question_step_None m) in Hover. congruence.
  - split; [|done]. intros _. exists w. split; [left|].
    by apply (question_step_None m).
Qed.

Lemma extract_question_numbers_from (ws : list word_item)
    (m m' : gmap Z question_pos) (n : Z) :
  question_steps m ws = Some m' →
  m' !! n =
    match last (filter (numbers_as ExactShape n) ws) with
    | Some item => Some (question_pos_of item)
    | None =>
        match m !! n with
        | Some q => Some q
        | None => question_pos_of <$> head (filter (numbers_as LooseShape n) ws)
        end
    end.
Proof.
  revert m. induction ws as [|w ws IH]; intros m; cbn [question_steps].
  { intros [= <-]. simpl. by destruct (m !! n). }
  destruct (question_step m w) as [m1|] eqn:E; cbn [mbind option_bind]; [|done].
  intros Hrest. rewrite (IH _ Hrest), last_filter_cons, !filter_cons.
  rewrite (question_step_lookup _ _ _ n E).
  destruct (last (filter (numbers_as ExactShape n) ws)) as [z|]; [done|].
  destruct (decide (numbers_as ExactShape n w)) as [He|He]; [done|].
  destruct (decide (numbers_as LooseShape n w)); by destruct (m !! n).
Qed.

(** C3: the claim is right about the loose prefix shape and fails on the
    four exact shapes.  Two words [1.] at the offsets 10 and 50 leave 50
    recorded for id 1, the offset of the second word, whereas two words
    matched by the loose shape leave the offset of the first; so the claim
    as stated does not hold of [_extract_question_numbers]. *)
Theorem question_first_match_not_kept :
  _extract_question_numbers [word_at (lit "1.") 0 10 0 0; word_at (lit "1.") 0 50 0 0]
    = Some {[ 1 := QuestionPos 50 ]} ∧
  _extract_question_numbers [word_at (lit "1.a") 0 10 0 0; word_at (lit "1.b") 0 50 0 0]
    = Some {[ 1 := QuestionPos 10 ]} ∧
  ¬ (∀ (words_result : list word_item) (question_numbers : gmap Z question_pos)
       (n : Z) (item : word_item),
       _extract_question_numbers words_result = Some question_numbers →
       head (filter (numbers n) words_result) = Some item →
       question_numbers !! n = Some (QuestionPos (loc_top (word_location item)))).
Proof.
  split; [by vm_compute|]. split; [by vm_compute|]. intros H.
  specialize (H [word_at (lit "1.") 0 10 0 0; word_at (lit "1.") 0 50 0 0]
                {[ 1 := QuestionPos 50 ]} 1 (word_at (lit "1.") 0 10 0 0)).
  assert ({[ 1 := QuestionPos 50 ]} !! 1 = Some (QuestionPos 10) → False) as Hne
    by (by rewrite lookup_singleton_eq).
  apply Hne, H; by vm_compute.
Qed.

(** What [_extract_question_numbers] records when it returns: only a match
    by the loose prefix shape is discarded when its id is already in the
    map; a match by one of the four exact shapes always overwrites.  So the
    offset recorded for an id is that of the last word matching it in an
    exact shape, if there is one, and otherwise that of the first word
    matching it in the loose shape. *)
Lemma extract_question_numbers_lookup (words_result : list word_item)
    (question_numbers : gmap Z question_pos) (n : Z) :
  _extract_question_numbers words_result = Some question_numbers →
  question_numbers !! n =
    match last (filter (numbers_as ExactShape n) words_result) with
    | Some item => Some (QuestionPos (loc_top (word_location item)))
    | None =>
        (fun item => QuestionPos (loc_top (word_location item)))
          <$> head (filter (numbers_as LooseShape n) words_result)
    end.
Proof.
  unfold _extract_question_numbers. intros H.
  by rewrite (extract_question_numbers_from _ _ _ n H), lookup_empty.
Qed.


(** ** Rules for runs *)

Section rules.
Context {A B : Type} (I : gset Z → event → Prop).
Implicit Types (s : gset Z) (tr : list (gset Z * event)).

Lemma chain_subseteq s tr s' : chain s tr s' → s ⊆ s'.
Proof.
  revert s. induction tr as [|[t ev] tr IH]; intros s; simpl; [done|].
  intros [Hst Htr]. etrans; [done|]. by apply IH.
Qed.

Lemma chain_app s tr1 t tr2 u :
  chain s tr1 t → chain t tr2 u → chain s (tr1 ++ tr2) u.
Proof.
  revert s. induction tr1 as [|[t1 ev] tr1 IH]; intros s; simpl.
  - intros Hst Htr2. destruct tr2 as [|[t2 ev2] tr2]; simpl in *; [by etrans|].
    destruct Htr2. split; [by etrans|done].
  - intros [Hs Htr1] Htr2. split; [done|]. by apply IH.
Qed.

Lemma chain_elem s tr s' t ev : chain s tr s' → (t, ev) ∈ tr → s ⊆ t ∧ t ⊆ s'.
Proof.
  revert s. induction tr as [|[t1 ev1] tr IH]; intros s; simpl.
  - by intros _ ?%elem_of_nil.
  - intros [Hs Htr] [E|Hin]%elem_of_cons.
    + injection E as -> ->. split; [done|]. by eapply chain_subseteq.
    + destruct (IH _ Htr Hin) as [Ht1 Hts']. split; [by etrans|done].
Qed.

Lemma wp_ret (a : A) (Q : exn + A → gset Z → Prop) s :
  Q (inr a) s → wp I (mret a) Q s.
Proof. intros HQ. split_and!; simpl; [done|constructor|done]. Qed.

Lemma wp_raise (e : exn) (Q : exn + A → gset Z → Prop) s :
  Q (inl e) s → wp I (raise e) Q s.
Proof. intros HQ. split_and!; simpl; [done|constructor|done]. Qed.

Lemma wp_bind (m : M A) (k : A → M B) (Q : exn + B → gset Z → Prop) s :
  wp I m (fun r s' => match r with
                      | inl e => Q (inl e) s'
                      | inr a => wp I (k a) Q s'
                      end) s →
  wp I (m ≫= k) Q s.
Proof.
  unfold wp, mbind, M_bind, bind. intros (Hc & Hi & Hq).
  destruct (outcome (m s)) as [e|a]; simpl; [done|].
  destruct Hq as (Hc' & Hi' & Hq').
  split_and!; [by eapply chain_app|by apply Forall_app|done].
Qed.

Lemma wp_try_except (m : M A) (h : exn → M A) (Q : exn + A → gset Z → Prop) s :
  wp I m (fun r s' => match r with
                      | inl e => wp I (h e) Q s'
                      | inr a => Q (inr a) s'
                      end) s →
  wp I (try_except m h) Q s.
Proof.
  unfold wp, try_except. intros (Hc & Hi & Hq).
  destruct (outcome (m s)) as [e|a] eqn:E; simpl; [|by rewrite E].
  destruct Hq as (Hc' & Hi' & Hq').
  split_and!; [by eapply chain_app|by apply Forall_app|done].
Qed.

Lemma wp_mono (m : M A) (Q Q' : exn + A → gset Z → Prop) s :
  wp I m Q s → (∀ r s', s ⊆ s' → Q r s' → Q' r s') → wp I m Q' s.
Proof.
  intros (Hc & Hi & Hq) HQ. split_and!; [done..|].
  apply HQ; [by eapply chain_subseteq|done].
Qed.

End rules.

Section atoms.
Context (I : gset Z → event → Prop).

Lemma wp_emit (ev : event) (Q : exn + unit → gset Z → Prop) s :
  I s ev → Q (inr tt) s → wp I (emit ev) Q s.
Proof. intros HI HQ. split_and!; simpl; [done|by repeat constructor|done]. Qed.

Lemma wp_log (msg : log_msg) (Q : exn + unit → gset Z → Prop) s :
  I s (Log msg) → Q (inr tt) s → wp I (_log msg) Q s.
Proof. apply wp_emit. Qed.

Lemma wp_get_answered (Q : exn + gset Z → gset Z → Prop) s :
  Q (inr s) s → wp I get_answered Q s.
Proof. intros HQ. split_and!; simpl; [done|constructor|done]. Qed.

Lemma wp_add_answered (q : Z) (Q : exn + unit → gset Z → Prop) s :
  Q (inr tt) ({[q]} ∪ s) → wp I (add_answered q) Q s.
Proof. intros HQ. split_and!; simpl; [set_solver|constructor|done]. Qed.

End atoms.


(** ** Running a computation step by step *)

Section run_rules.
Context {A B : Type}.
Implicit Types (s : gset Z) (tr : list (gset Z * event)).

Lemma run_eta (r : run A) : r = Run (events r) (final r) (outcome r).
Proof. by destruct r. Qed.

Lemma prepend_nil (r : run A) : prepend [] r = r.
Proof. by destruct r. Qed.

Lemma prepend_prepend tr1 tr2 (r : run A) :
  prepend tr1 (prepend tr2 r) = prepend (tr1 ++ tr2) r.
Proof. unfold prepend. simpl. by rewrite app_assoc. Qed.

Lemma bind_inr (m : M A) (k : A → M B) s tr s' a :
  m s = Run tr s' (inr a) → (m ≫= k) s = prepend tr (k a s').
Proof. intros E. unfold mbind, M_bind, bind. by rewrite E. Qed.

Lemma bind_inl (m : M A) (k : A → M B) s tr s' e :
  m s = Run tr s' (inl e) → (m ≫= k) s = Run tr s' (inl e).
Proof. intros E. unfold mbind, M_bind, bind. by rewrite E. Qed.

Lemma try_inr (m : M A) (h : exn → M A) s tr s' a :
  m s = Run tr s' (inr a) → try_except m h s = Run tr s' (inr a).
Proof. intros E. unfold try_except. by rewrite E. Qed.

Lemma try_inl (m : M A) (h : exn → M A) s tr s' e :
  m s = Run tr s' (inl e) → try_except m h s = prepend tr (h e s').
Proof. intros E. unfold try_except. by rewrite E. Qed.

End run_rules.


(** ** The scroll loop keeps its invariant *)

Ltac wp_step :=
  first [ apply wp_bind | apply wp_ret | apply wp_raise | apply wp_log
        | apply wp_emit | apply wp_get_answered | apply wp_add_answered
        | apply wp_try_except ].

Section scroll_invariant.
Variable region : rect.
Variable option_positions : option (gmap str (Z * Z)).
Variable T : Z.
Variable scroll_overlap : Z.
Implicit Types (s : gset Z) (q : Z).

Local Abbreviation within_target := (within_target T).

Lemma scroll_inv_neutral s ev :
  event_question ev = None → within_target s → scroll_inv T s ev.
Proof. intros Hev Hs. split; [done|]. intros q. by rewrite Hev. Qed.

Lemma scroll_inv_question s ev q :
  event_question ev = Some q → q ∉ s → Z.of_nat (size s) < T → scroll_inv T s ev.
Proof.
  intros Hev Hq Hs. split; [intros ?; lia|]. intros q'. rewrite Hev. by intros [= <-].
Qed.

Lemma within_target_add s q :
  q ∉ s → Z.of_nat (size s) < T → within_target ({[q]} ∪ s).
Proof.
  intros Hq Hs _. rewrite size_union by set_solver. rewrite size_singleton. lia.
Qed.

Lemma wp_click_position q x y raises (Q : exn + unit → gset Z → Prop) s :
  q ∉ s → Z.of_nat (size s) < T → (∀ r, Q r s) →
  wp (scroll_inv T) (click_position q x y raises) Q s.
Proof.
  intros Hq Hs HQ. assert (within_target s) by (intros ?; lia).
  unfold click_position. wp_step. wp_step; [by eapply scroll_inv_question|].
  destruct raises; wp_step; [done|by apply scroll_inv_neutral|done].
Qed.

Lemma wp_click_options q positions answer_options raises
    (Q : exn + unit → gset Z → Prop) s :
  q ∉ s → Z.of_nat (size s) < T → (∀ r, Q r s) →
  wp (scroll_inv T) (click_options q positions answer_options raises) Q s.
Proof.
  intros Hq Hs HQ. assert (within_target s) by (intros ?; lia).
  revert raises. induction answer_options as [|o os IH]; intros raises; simpl.
  - by wp_step.
  - destruct (positions !! o) as [[x y]|].
    + wp_step. apply wp_click_position; [done..|]. intros [e|[]]; [done|].
      wp_step. wp_step; [by apply scroll_inv_neutral|]. apply IH.
    + wp_step. wp_step; [by apply scroll_inv_neutral|]. apply IH.
Qed.

Lemma wp_analyze_question q text r (Q : exn + str → gset Z → Prop) s :
  q ∉ s → Z.of_nat (size s) < T → (∀ r, Q r s) →
  wp (scroll_inv T) (analyze_question q text r) Q s.
Proof.
  intros Hq Hs HQ. unfold analyze_question.
  wp_step. wp_step; [by eapply scroll_inv_question|]. destruct r; by wp_step.
Qed.

(** Answering one question: an exception leaves the set as it was, a
    normal return has added the question. *)
Lemma wp_answer_question q text words_result qe (Q : exn + unit → gset Z → Prop) s :
  q ∉ s → Z.of_nat (size s) < T →
  (∀ e, Q (inl e) s) → Q (inr tt) ({[q]} ∪ s) →
  wp (scroll_inv T) (answer_question region option_positions q text words_result qe) Q s.
Proof.
  intros Hq Hs Hexn Hret. assert (within_target s) by (intros ?; lia).
  pose proof (within_target_add s q Hq Hs) as Hadd.
  unfold answer_question. wp_step.
  apply wp_analyze_question; [done..|]. intros [e|answer]; [done|].
  wp_step. wp_step; [by apply scroll_inv_neutral|].
  wp_step. wp_step; [by apply scroll_inv_neutral|].
  wp_step. apply wp_click_options; [done..|]. intros [e|[]]; [done|].
  wp_step. wp_step. wp_step. wp_step; [by apply scroll_inv_neutral|].
  destruct (negb _); wp_step; [by apply scroll_inv_neutral|done..].
Qed.

(** The [for] loop over the unanswered questions of a window. *)
Lemma wp_answer_questions text words_result env unanswered
    (Q : exn + unit → gset Z → Prop) s :
  NoDup unanswered → (∀ q, q ∈ unanswered → q ∉ s) → within_target s →
  (∀ s', within_target s' → Q (inr tt) s') →
  wp (scroll_inv T)
     (answer_questions region option_positions T text words_result env unanswered) Q s.
Proof.
  intros Hnd. revert s. induction Hnd as [|q qs Hq Hnd IH]; intros s Hfresh Hs HQ; simpl.
  - wp_step. by apply HQ.
  - destruct (q_stop (env q)); [wp_step; by apply HQ|].
    wp_step. wp_step. case_bool_decide as Hsize; [wp_step; by apply HQ|].
    assert (q ∉ s) as Hqs by (apply Hfresh; left).
    assert (Z.of_nat (size s) < T) as Hlt by lia.
    pose proof (within_target_add s q Hqs Hlt) as Hadd.
    assert (∀ q', q' ∈ qs → q' ∉ {[q]} ∪ s) as Hfresh'.
    { intros q' Hq'. apply not_elem_of_union. split.
      - intros ->%elem_of_singleton. done.
      - apply Hfresh. by right. }
    wp_step. wp_step. apply wp_answer_question; [done..| |].
    + intros e. wp_step. wp_step; [by apply scroll_inv_neutral|].
      wp_step. by apply IH.
    + by apply IH.
Qed.

Lemma wp_scroll_page distance center raises (Q : exn + unit → gset Z → Prop) s :
  within_target s → (∀ r, Q r s) →
  wp (scroll_inv T) (_scroll_page distance center raises) Q s.
Proof.
  intros Hs HQ. unfold _scroll_page.
  wp_step. wp_step; [by apply scroll_inv_neutral|].
  wp_step. destruct (bool_decide (raises = Some MoveToCall)); [by wp_step|]. wp_step.
  destruct (bool_decide (- (distance / 120) ≠ 0)); [|by wp_step].
  wp_step. wp_step; [by apply scroll_inv_neutral|].
  wp_step. destruct (bool_decide (raises = Some ScrollCall)); [by wp_step|]. wp_step.
  wp_step. wp_step; [by apply scroll_inv_neutral|].
  destruct (bool_decide (raises = Some SleepCall)); wp_step;
    [done|by apply scroll_inv_neutral|done].
Qed.

Lemma wp_scroll_on question_numbers height center raises
    (Q : exn + unit → gset Z → Prop) s :
  within_target s → (∀ r, Q r s) →
  wp (scroll_inv T) (scroll_on scroll_overlap question_numbers height center raises) Q s.
Proof.
  intros Hs HQ. unfold scroll_on. wp_step.
  destruct (_calculate_scroll_distance _ _ _); simpl; [|by wp_step].
  wp_step. by apply wp_scroll_page.
Qed.

Lemma sorted_keys_NoDup (question_numbers : gmap Z question_pos) :
  NoDup (sorted_keys question_numbers).
Proof.
  unfold sorted_keys. rewrite merge_sort_Permutation. apply NoDup_elements.
Qed.

Lemma elem_of_sorted_keys (question_numbers : gmap Z question_pos) q :
  q ∈ sorted_keys question_numbers ↔ is_Some (question_numbers !! q).
Proof.
  unfold sorted_keys. by rewrite merge_sort_Permutation, elem_of_elements, elem_of_dom.
Qed.

(** The [while] loop: the final set is within the target, and the loop
    condition has become false only if the target is reached. *)
Lemma wp_scroll_loop ocr_mode script (Q : exn + loop_end → gset Z → Prop) s :
  within_target s →
  (∀ r s', within_target s' → (r = inr Reached → T ≤ Z.of_nat (size s')) → Q r s') →
  wp (scroll_inv T)
     (scroll_loop region option_positions T scroll_overlap ocr_mode script) Q s.
Proof.
  revert ocr_mode s. induction script as [|w script IH]; intros ocr_mode s Hs HQ.
  - simpl. wp_step. wp_step. case_bool_decide; wp_step; by apply HQ.
  - simpl. wp_step. wp_step. case_bool_decide as Hsize; [wp_step; by apply HQ|].
    destruct (w_stop w).
    { wp_step. wp_step; [by apply scroll_inv_neutral|]. wp_step. by apply HQ. }
    (* capture *)
    wp_step. wp_step. wp_step. unfold capture_region. wp_step.
    wp_step; [by apply scroll_inv_neutral|].
    destruct (w_capture w) as [e|].
    { wp_step. wp_step. wp_step; [by apply scroll_inv_neutral|]. wp_step.
      simpl. wp_step. by apply HQ. }
    wp_step. wp_step. wp_step; [by apply scroll_inv_neutral|]. wp_step. simpl.
    (* recognition *)
    wp_step. wp_step. wp_step.
    assert (wp (scroll_inv T)
              (if bool_decide (ocr_mode ≠ accurate_basic)
               then _log LogForceAccurate else mret tt)
              (fun r s' => r = inr tt ∧ s' = s) s) as Hwarn.
    { case_bool_decide; wp_step; by try apply scroll_inv_neutral. }
    eapply wp_mono; [exact Hwarn|]. intros r s' _ [-> ->]. clear Hwarn.
    wp_step. unfold call_recognize_text. wp_step.
    wp_step; [by apply scroll_inv_neutral|].
    destruct (w_response w) as [words_result|]; simpl.
    2:{ wp_step. wp_step. wp_step; [by apply scroll_inv_neutral|]. wp_step.
        wp_step. by apply HQ. }
    wp_step. wp_step.
    set (question_text := join_lines _).
    wp_step.
    destruct (_extract_question_numbers words_result) as [question_numbers|];
      cbn [lift_option]; [|wp_step; by apply HQ].
    wp_step.
    wp_step. wp_step; [by apply scroll_inv_neutral|].
    case_bool_decide as Hempty.
    { wp_step. wp_step; [by apply scroll_inv_neutral|]. wp_step.
      apply wp_scroll_page; [done|]. intros [e|[]]; [by apply HQ|]. by apply IH. }
    wp_step. wp_step.
    case_bool_decide as Hnone.
    { wp_step. wp_step; [by apply scroll_inv_neutral|]. wp_step.
      apply wp_scroll_on; [done|]. intros [e|[]]; [by apply HQ|]. by apply IH. }
    wp_step. apply wp_answer_questions; [| |done|].
    { apply NoDup_filter, sorted_keys_NoDup. }
    { by intros q [Hq _]%list_elem_of_filter. }
    intros s' Hs'. wp_step. wp_step. wp_step.
    case_bool_decide.
    + apply wp_scroll_on; [done|]. intros [e|[]]; [by apply HQ|]. by apply IH.
    + wp_step. by apply IH.
Qed.

Lemma wp_answering_loop_scroll_mode ocr_mode script final_stop
    (Q : exn + loop_end → gset Z → Prop) s :
  within_target s →
  (∀ r s', within_target s' → (r = inr Reached → T ≤ Z.of_nat (size s')) → Q r s') →
  wp (scroll_inv T)
     (_answering_loop_scroll_mode region option_positions T scroll_overlap
        ocr_mode script final_stop) Q s.
Proof.
  intros Hs HQ. unfold _answering_loop_scroll_mode.
  wp_step. wp_step; [by apply scroll_inv_neutral|].
  wp_step. apply wp_scroll_loop; [done|]. intros [e|r] s' Hs' Hr; [by apply HQ|].
  assert (wp (scroll_inv T)
            (answered_questions ← get_answered;
             (if negb final_stop
              then _log (LogFinished (Z.of_nat (size answered_questions)))
              else mret tt);;
             mret r) Q s') as Hfinal.
  { wp_step. wp_step. wp_step.
    destruct (negb final_stop); wp_step; try (by apply scroll_inv_neutral);
      wp_step; by apply HQ. }
  destruct r; try exact Hfinal. wp_step. by apply HQ.
Qed.

End scroll_invariant.


(** ** Claims on the scroll loop *)

Lemma scroll_mode_run_invariant region option_positions T scroll_overlap
    ocr_mode script final_stop :
  wp (scroll_inv T)
     (_answering_loop_scroll_mode region option_positions T scroll_overlap
        ocr_mode script final_stop)
     (fun r s' => within_target T s' ∧ (r = inr Reached → T ≤ Z.of_nat (size s')))
     ∅.
Proof.
  apply wp_answering_loop_scroll_mode; [|done].
  intros ?. rewrite size_empty. lia.
Qed.

(** C6: in every scroll-mode run the answered set only grows — along the
    trace every effect sees a set that contains the one the effect before it
    saw, and the final set contains them all — and every call on the oracle
    and every click made for a question happens while that question is not
    in the answered set. *)
Theorem scroll_mode_answered_only_grows
    (region : rect) (option_positions : option (gmap str (Z * Z)))
    (total_questions scroll_overlap : Z) (ocr_mode : recognition_mode)
    (script : list window_env) (final_stop : bool) :
  let r := _answering_loop_scroll_mode region option_positions total_questions
             scroll_overlap ocr_mode script final_stop ∅ in
  chain ∅ (events r) (final r) ∧
  Forall (fun se => ∀ q, event_question se.2 = Some q → q ∉ se.1) (events r).
Proof.
  destruct (scroll_mode_run_invariant region option_positions total_questions
              scroll_overlap ocr_mode script final_stop) as (Hchain & Hinv & _).
  split; [done|]. eapply Forall_impl; [exact Hinv|].
  intros [s ev] [_ Hev] q Hq. by destruct (Hev q Hq).
Qed.

(** C10: with a target that is not negative, the answered set never holds
    more than [total_questions] ids at any effect of a scroll-mode run nor at
    its end; every oracle call and click is made while the set is still below
    the target; and when the loop condition ends the run, the set holds
    exactly [total_questions] ids. *)
Theorem scroll_mode_answered_within_target
    (region : rect) (option_positions : option (gmap str (Z * Z)))
    (total_questions scroll_overlap : Z) (ocr_mode : recognition_mode)
    (script : list window_env) (final_stop : bool) :
  0 ≤ total_questions →
  let r := _answering_loop_scroll_mode region option_positions total_questions
             scroll_overlap ocr_mode script final_stop ∅ in
  Forall (fun se => Z.of_nat (size se.1) ≤ total_questions) (events r) ∧
  Forall (fun se => is_Some (event_question se.2) →
                    Z.of_nat (size se.1) < total_questions) (events r) ∧
  Z.of_nat (size (final r)) ≤ total_questions ∧
  (outcome r = inr Reached → Z.of_nat (size (final r)) = total_questions).
Proof.
  intros HT.
  destruct (scroll_mode_run_invariant region option_positions total_questions
              scroll_overlap ocr_mode script final_stop) as (_ & Hinv & Hfin & Hend).
  split_and!.
  - eapply Forall_impl; [exact Hinv|]. intros [s ev] [Hs _]. by apply Hs.
  - eapply Forall_impl; [exact Hinv|]. intros [s ev] [_ Hev] [q Hq].
    by destruct (Hev q Hq).
  - by apply Hfin.
  - intros Hr. specialize (Hfin HT). specialize (Hend Hr). lia.
Qed.

Lemma scroll_mode_answered_within_target_witness :
  0 ≤ 2 ∧
  let r := _answering_loop_scroll_mode sample_region None 2 150 general_basic
             [sample_window; sample_window] false ∅ in
  Forall (fun se => Z.of_nat (size se.1) ≤ 2) (events r) ∧
  Forall (fun se => is_Some (event_question se.2) → Z.of_nat (size se.1) < 2) (events r) ∧
  Z.of_nat (size (final r)) ≤ 2 ∧
  (outcome r = inr Reached → Z.of_nat (size (final r)) = 2).
Proof.
  split; [lia|].
  apply (scroll_mode_answered_within_target sample_region None 2 150 general_basic
           [sample_window; sample_window] false).
  lia.
Defined.

(** The scroll scenario of the specification: both questions of the first
    window are answered and the run ends without scrolling. *)
Example scroll_scenario :
  let r := _answering_loop_scroll_mode sample_region None 2 150 general_basic
             [sample_window; sample_window] false ∅ in
  outcome r = inr Reached ∧ final r = {[1; 2]} ∧
  List.filter is_scroll (events r).*2 = [] ∧
  filter (fun ev => is_Some (event_question ev)) (events r).*2 =
    [Ask 1 (lit "1." ++ 10%N :: lit "A." ++ 10%N :: lit "B." ++ 10%N :: lit "2.");
     Click 1 55 160;
     Ask 2 (lit "1." ++ 10%N :: lit "A." ++ 10%N :: lit "B." ++ 10%N :: lit "2.");
     Click 2 55 160].
Proof. split_and!; by vm_compute. Qed.


(** ** Errors in the scroll loop *)

Section scroll_errors.
Variable region : rect.
Variable option_positions : option (gmap str (Z * Z)).
Variable T : Z.
Variable scroll_overlap : Z.

Lemma click_options_keeps_state q positions answer_options raises
    (Q : exn + unit → gset Z → Prop) s :
  (∀ r, Q r s) → wp any_effect (click_options q positions answer_options raises) Q s.
Proof.
  intros HQ. revert raises.
  induction answer_options as [|o os IH]; intros raises; simpl; [by wp_step|].
  destruct (positions !! o) as [[x y]|].
  - wp_step. unfold click_position. wp_step. wp_step; [done|].
    destruct (hd false raises); wp_step; [done..|].
    wp_step. wp_step; [done|]. apply IH.
  - wp_step. wp_step; [done|]. apply IH.
Qed.


(** A failing oracle call is one way the [try] block raises. *)
Lemma answer_question_oracle_raises q text words_result qe s e :
  q_oracle qe = inl e →
  outcome (answer_question region option_positions q text words_result qe s) = inl e.
Proof.
  intros E. unfold answer_question, analyze_question, mbind, M_bind, bind. simpl.
  by rewrite E.
Qed.

(** A failing click is another. *)
Lemma answer_question_click_raises q text words_result qe s answer o os x y :
  option_positions = Some {[ o := (x, y) ]} →
  q_oracle qe = inr answer → parse_answer answer = o :: os →
  hd false (q_click_raises qe) = true →
  outcome (answer_question region option_positions q text words_result qe s)
    = inl AutomationException.
Proof.
  intros -> E Hp Hc.
  unfold answer_question, analyze_question, mbind, M_bind, bind. simpl.
  rewrite E. simpl. rewrite Hp. simpl. rewrite lookup_singleton_eq.
  unfold click_position, mbind, M_bind, bind. simpl. by rewrite Hc.
Qed.


End scroll_errors.


(** With an oracle that fails on both questions of the window, both are
    still marked answered and the loop ends on its condition. *)
Example scroll_failing_oracle :
  let r := _answering_loop_scroll_mode sample_region None 2 150 accurate_basic
             [failing_oracle_window] false ∅ in
  outcome r = inr Reached ∧ final r = {[1; 2]} ∧
  List.filter (fun ev => match ev with Log (LogQuestionError _ _) => true | _ => false end)
    (events r).*2
  = [Log (LogQuestionError 1 AIException); Log (LogQuestionError 2 AIException)].
Proof. split_and!; by vm_compute. Qed.

(** A failing capture in the second window ends the run there. *)
Example scroll_failing_capture :
  let broken := {| w_stop := false; w_capture := Some ScreenshotException;
                   w_response := None; w_question := w_question sample_window;
                   w_scroll_raises := None |} in
  let r := _answering_loop_scroll_mode sample_region None 5 150 accurate_basic
             [sample_window; broken; sample_window] false ∅ in
  outcome r = inr Fatal ∧ final r = {[1; 2]} ∧
  length (List.filter (fun ev => match ev with Capture => true | _ => false end)
            (events r).*2) = 2%nat.
Proof. split_and!; by vm_compute. Qed.


(** ** The fixed-page loop *)

Ltac wp_go := repeat (wp_step; try done).

Ltac wp_case :=
  match goal with
  | |- wp _ (match ?x with _ => _ end) _ _ => destruct x
  end.

Ltac run_simpl :=
  cbn [prepend events final outcome mret M_ret ret raise emit _log get_answered
       add_answered app andb negb].

Section normal_errors.
Variable region : rect.
Variable option_positions : option (gmap str (Z * Z)).
Variable next_button_pos : option (Z * Z).
Variable interval : float.
Variable T : Z.
Variable ocr_mode : recognition_mode.
Variable auto_next : bool.
Implicit Types (s : gset Z) (i : Z).

Local Abbreviation single i env s :=
  (_answer_single_question region option_positions next_button_pos ocr_mode
     auto_next i%Z (bool_decide (i%Z = T)) env s).
Local Abbreviation loop env iterations s :=
  (normal_loop region option_positions next_button_pos interval T ocr_mode
     auto_next env iterations s).

Lemma wp_click_marked q positions answer_options raises
    (Q : exn + unit → gset Z → Prop) s :
  (∀ r, Q r s) →
  wp (inside_iteration s) (click_marked_options q positions answer_options raises) Q s.
Proof.
  intros HQ. revert raises.
  induction answer_options as [|o os IH]; intros raises; simpl; [by wp_step|].
  destruct positions as [positions|]; [|by wp_step].
  destruct (positions !! o) as [[x y]|].
  - unfold click_position. wp_go. destruct (hd false raises); wp_go.
  - wp_go.
Qed.

(** One question of the fixed-page loop: the first effect is the
    [正在处理] line, no other effect is one, and the answered set is not
    touched. *)
Lemma single_question_run i env s :
  ∃ tr, events ((_answer_single_question region option_positions next_button_pos ocr_mode
       auto_next i (bool_decide (i = T)) env s)) = (s, Log (LogProcessing i)) :: tr ∧
        Forall (fun se => inside_iteration s se.1 se.2) tr ∧
        final ((_answer_single_question region option_positions next_button_pos ocr_mode
       auto_next i (bool_decide (i = T)) env s)) = s.
Proof.
  assert (∃ body : M unit,
            _answer_single_question region option_positions next_button_pos ocr_mode
       auto_next i (bool_decide (i = T)) env = (_log (LogProcessing i) ≫= fun _ => body) ∧
            wp (inside_iteration s) body (fun _ s' => s' = s) s)
    as (body & E & (_ & Hi & Hfinal)).
  { eexists. split; [reflexivity|].
    unfold capture_region, call_recognize_text, analyze_question, click_position.
    repeat first [ wp_step; try done | wp_case
                 | apply wp_click_marked; intros [?|[]] ]. }
  rewrite E. erewrite bind_inr by reflexivity.
  unfold prepend. cbn [events final outcome app]. eauto.
Qed.
Lemma started_inside s tr :
  Forall (fun se => inside_iteration s se.1 se.2) tr → started tr = [].
Proof.
  unfold started.
  induction 1 as [|[t ev] tr [_ Hev] _ IH]; [done|]. simpl in Hev.
  destruct ev as [m| | | | | | |]; try exact IH.
  destruct m; try exact IH. by destruct (Hev question_num).
Qed.

Lemma started_app tr1 tr2 : started (tr1 ++ tr2) = started tr1 ++ started tr2.
Proof. apply omap_app. Qed.

Lemma started_single i env s :
  started (events (_answer_single_question region option_positions next_button_pos
                     ocr_mode auto_next i (bool_decide (i = T)) env s)) = [i].
Proof.
  destruct (single_question_run i env s) as (tr1 & -> & Htr1 & _).
  change (started ((s, Log (LogProcessing i)) :: tr1)) with (i :: started tr1).
  by rewrite (started_inside s tr1 Htr1).
Qed.

(** An iteration whose question raises: the exception is logged and the
    loop goes on with the next iteration; there is no pause. *)
Lemma normal_loop_failed env i rest s e :
  n_stop (env i) = false → outcome (single i (env i) s) = inl e →
  loop env (i :: rest) s
  = prepend (events (single i (env i) s) ++ [(s, Log (LogQuestionError i e))])
      (loop env rest s).
Proof.
  intros Hstop Hout. cbn [normal_loop]. rewrite Hstop.
  destruct (single_question_run i (env i) s) as (tr1 & _ & _ & Hfinal).
  pose proof (run_eta (single i (env i) s)) as Heta. rewrite Hfinal, Hout in Heta.
  erewrite bind_inr.
  2:{ erewrite try_inl; [|erewrite bind_inl; [reflexivity|exact Heta]].
      erewrite bind_inr by reflexivity. run_simpl. reflexivity. }
  run_simpl. erewrite bind_inr by reflexivity.
  by rewrite prepend_nil.
Qed.

(** One iteration that is not stopped: the effects of the question, then
    effects that start no iteration and include the error line if the
    question raised; then the rest of the loop from the same state, unless
    the pause after a question that went through raises. *)
Lemma normal_loop_cons env i rest s :
  n_stop (env i) = false →
  ∃ tr,
    started tr = [] ∧
    (∀ e, outcome (single i (env i) s) = inl e → (s, Log (LogQuestionError i e)) ∈ tr) ∧
    (loop env (i :: rest) s
       = prepend (events (single i (env i) s) ++ tr) (loop env rest s) ∨
     ∃ e, sleep_error interval = Some e ∧
          loop env (i :: rest) s = Run (events (single i (env i) s) ++ tr) s (inl e)).
Proof.
  intros Hstop.
  destruct (outcome (single i (env i) s)) as [e|[]] eqn:Hout.
  - exists [(s, Log (LogQuestionError i e))]. split_and!; [done| |].
    + intros e' [= <-]. left.
    + left. by apply normal_loop_failed.
  - cbn [normal_loop]. rewrite Hstop.
    destruct (single_question_run i (env i) s) as (tr1 & _ & _ & Hfinal).
    pose proof (run_eta (single i (env i) s)) as Heta. rewrite Hfinal, Hout in Heta.
    erewrite bind_inr.
    2:{ erewrite try_inr; [reflexivity|].
        erewrite bind_inr by exact Heta. run_simpl. reflexivity. }
    run_simpl. exists (if negb (bool_decide (i = T)) && negb (n_stop_after (env i))
                       then match sleep_error interval with
                            | None => [(s, Sleep)]
                            | Some _ => []
                            end
                       else []).
    split_and!; [by repeat case_match|done|].
    destruct (negb (bool_decide (i = T)) && negb (n_stop_after (env i))).
    + unfold time_sleep. destruct (sleep_error interval) as [e|].
      * right. exists e. split; [done|].
        erewrite bind_inl by reflexivity. unfold prepend.
        cbn [events final outcome]. by rewrite !app_nil_r.
      * left. erewrite bind_inr by reflexivity. rewrite prepend_prepend.
        by rewrite app_nil_r.
    + left. erewrite bind_inr by reflexivity. rewrite prepend_nil.
      by rewrite !app_nil_r.
Qed.

(** The loop from any point on: the answered set is not touched; only the
    pause can end the loop with an exception, and with a pause that works
    the loop returns and starts exactly the iterations before the first
    stop; the iterations started are always the first of these, and every
    exception of a started iteration is logged under its number. *)
Lemma normal_loop_run env iterations s :
  let r := loop env iterations s in
  final r = s ∧
  (∀ e, outcome r = inl e → sleep_error interval = Some e) ∧
  (sleep_error interval = None →
   outcome r = inr tt ∧ started (events r) = before_stop env iterations) ∧
  started (events r) `prefix_of` before_stop env iterations ∧
  Forall (fun i => ∀ e, outcome (single i (env i) s) = inl e →
                        (s, Log (LogQuestionError i e)) ∈ events r)
         (started (events r)).
Proof.
  induction iterations as [|i rest (IHf & IHx & IHo & IHp & IHe)].
  { cbn zeta. cbn [normal_loop]. by split_and!. }
  cbn [before_stop]. destruct (n_stop (env i)) eqn:Hstop.
  { cbn zeta. cbn [normal_loop]. rewrite Hstop.
    split_and!; first [done|apply prefix_nil|apply Forall_nil]. }
  destruct (normal_loop_cons env i rest s Hstop) as (tr & Htr & Herr & [->|(e & Hsl & ->)]).
  - cbn zeta. unfold prepend. cbn [events final outcome].
    rewrite !started_app, started_single, Htr. cbn [app].
    split_and!; [done|done| | |].
    + intros Hok. destruct (IHo Hok) as [-> ->]. done.
    + by apply prefix_cons.
    + constructor.
      * intros e He. rewrite !elem_of_app. left. right. by apply Herr.
      * eapply Forall_impl; [exact IHe|]. intros j Hj e He.
        apply elem_of_app. right. by apply Hj.
  - cbn zeta. cbn [events final outcome].
    rewrite !started_app, started_single, Htr. cbn [app].
    split_and!; [done| | | |].
    + by intros e' [= <-].
    + intros Hok. congruence.
    + apply prefix_cons, prefix_nil.
    + constructor; [|done].
      intros e' He'. rewrite !elem_of_app. right. by apply Herr.
Qed.

(** The same for the whole of [_answering_loop_normal_mode]. *)
Lemma normal_mode_run env final_stop s :
  let r := _answering_loop_normal_mode region option_positions next_button_pos
             interval T ocr_mode auto_next env final_stop s in
  (∀ e, outcome r = inl e → sleep_error interval = Some e) ∧
  (sleep_error interval = None →
   outcome r = inr tt ∧ started (events r) = before_stop env (question_range T)) ∧
  started (events r) `prefix_of` before_stop env (question_range T) ∧
  Forall (fun i => ∀ e, outcome (single i (env i) s) = inl e →
                        (s, Log (LogQuestionError i e)) ∈ events r)
         (started (events r)).
Proof.
  destruct (normal_loop_run env (question_range T) s) as (Hf & Hx & Ho & Hp & He).
  pose proof (run_eta (loop env (question_range T) s)) as Heta. rewrite Hf in Heta.
  unfold _answering_loop_normal_mode. cbn zeta.
  erewrite bind_inr by reflexivity.
  destruct (outcome (loop env (question_range T) s)) as [e|[]] eqn:Hout.
  - erewrite (bind_inl (normal_loop _ _ _ _ _ _ _ _ _)) by exact Heta.
    unfold prepend. cbn [events final outcome app].
    change (started ((s, Log LogStart) :: ?l)) with (started l).
    split_and!; [by intros e' [= <-]; apply Hx| |done|].
    + intros Hok. by destruct (Ho Hok).
    + eapply Forall_impl; [exact He|]. intros i Hi e' Hout'.
      apply elem_of_cons. right. by apply Hi.
  - erewrite (bind_inr (normal_loop _ _ _ _ _ _ _ _ _)) by exact Heta.
    assert (∃ tr, (if negb final_stop then _log (LogFinished T) else mret tt) s
                  = Run tr s (inr tt) ∧ started tr = []) as (tr & Etr & Htr).
    { destruct (negb final_stop); [by exists [(s, Log (LogFinished T))]|by exists []]. }
    rewrite Etr. unfold prepend. cbn [events final outcome app].
    change (started ((s, Log LogStart) :: ?l)) with (started l).
    rewrite started_app, Htr, app_nil_r.
    split_and!; [done| |done|].
    + intros Hok. by destruct (Ho Hok) as [_ ->].
    + eapply Forall_impl; [exact He|]. intros i Hi e' Hout'.
      apply elem_of_cons. right. apply elem_of_app. left. by apply Hi.
Qed.

(** C8: in the fixed-page loop an iteration whose question raises, at any
    of its steps, has the exception logged under its number and is followed
    by the rest of the loop, so by the next iteration; no such failure ends
    the run: the only exception that can leave the loop is that of the
    pause between two questions ([time.sleep] on the interval), and with an
    interval [time.sleep] accepts the loop returns normally and starts
    exactly the iterations of [1..total] before the first one that finds
    the stop flag set.  The iterations started are always the first of
    these, and every exception of a started iteration is logged. *)
Theorem normal_mode_survives_errors (env : Z → iteration_env) (final_stop : bool)
    (s : gset Z) :
  let r := _answering_loop_normal_mode region option_positions next_button_pos
             interval T ocr_mode auto_next env final_stop s in
  (∀ i rest e,
     n_stop (env i) = false →
     outcome (_answer_single_question region option_positions next_button_pos
                ocr_mode auto_next i (bool_decide (i = T)) (env i) s) = inl e →
     normal_loop region option_positions next_button_pos interval T ocr_mode
       auto_next env (i :: rest) s
     = prepend
         (events (_answer_single_question region option_positions next_button_pos
                    ocr_mode auto_next i (bool_decide (i = T)) (env i) s)
          ++ [(s, Log (LogQuestionError i e))])
         (normal_loop region option_positions next_button_pos interval T ocr_mode
            auto_next env rest s)) ∧
  (∀ e, outcome r = inl e → sleep_error interval = Some e) ∧
  (sleep_error interval = None →
   outcome r = inr tt ∧ started (events r) = before_stop env (question_range T)) ∧
  started (events r) `prefix_of` before_stop env (question_range T) ∧
  Forall (fun i => ∀ e,
            outcome (_answer_single_question region option_positions next_button_pos
                       ocr_mode auto_next i (bool_decide (i = T)) (env i) s) = inl e →
            (s, Log (LogQuestionError i e)) ∈ events r)
         (started (events r)).
Proof.
  split; [|exact (normal_mode_run env final_stop s)].
  intros i rest e Hstop Hout. by apply normal_loop_failed.
Qed.

End normal_errors.

(** The pause: an interval of three seconds is accepted; NaN, a negative
    interval and an infinite one are not. *)
Example sleep_error_examples :
  sleep_error 3%float = None ∧ sleep_error 0%float = None ∧
  sleep_error PrimFloat.nan = Some ValueError ∧
  sleep_error (-1)%float = Some ValueError ∧
  sleep_error PrimFloat.infinity = Some OverflowError ∧
  sleep_error 1e10%float = Some OverflowError.
Proof. split_and!; by vm_compute. Qed.

(** The fixed-page scenario of the specification: three questions, the
    "next" button is clicked after the first two only. *)
Example normal_scenario :
  let r := _answering_loop_normal_mode (Rect 0 0 800 600) (Some sample_positions)
             (Some (700, 550)) 3%float 3 general_basic false (fun _ => sample_iteration)
             false ∅ in
  outcome r = inr tt ∧
  List.filter (fun ev => match ev with Log (LogNext _) => true | _ => false end)
    (events r).*2 = [Log (LogNext 1); Log (LogNext 2)] ∧
  List.filter (fun ev => match ev with Click _ _ _ => true | _ => false end)
    (events r).*2
  = [Click 1 55 210; Click 1 700 550; Click 2 55 210; Click 2 700 550; Click 3 55 210].
Proof. split_and!; by vm_compute. Qed.

(** A capture that fails in the second of three iterations: the error is
    logged and the third iteration runs. *)
Example normal_failing_iteration :
  let env := fun i : Z => if bool_decide (i = 2) then failing_iteration
                          else sample_iteration in
  let r := _answering_loop_normal_mode (Rect 0 0 800 600) (Some sample_positions)
             (Some (700, 550)) 3%float 3 general_basic false env false ∅ in
  outcome r = inr tt ∧ started (events r) = [1; 2; 3] ∧
  List.filter (fun ev => match ev with Log (LogQuestionError _ _) => true | _ => false end)
    (events r).*2
  = [Log (LogQuestionError 2 (Exception CaptureStage ScreenshotException))] ∧
  List.filter (fun ev => match ev with Click _ _ _ => true | _ => false end)
    (events r).*2
  = [Click 1 55 210; Click 1 700 550; Click 3 55 210].
Proof. split_and!; by vm_compute. Qed.

(** With an interval that is not a number the pause after the first
    question raises and the loop ends there, after one iteration. *)
Example normal_failing_pause :
  let r := _answering_loop_normal_mode (Rect 0 0 800 600) (Some sample_positions)
             (Some (700, 550)) PrimFloat.nan 3 general_basic false
             (fun _ => sample_iteration) false ∅ in
  outcome r = inl ValueError ∧ started (events r) = [1].
Proof. split_and!; by vm_compute. Qed.


(** ** The start handler *)

(** Once the credentials and the region pass, the handler reads
    [scroll_mode] before assigning it: the body of the [try] block ends in
    [UnboundLocalError] whatever else is configured. *)
Lemma start_checks_unbound (w : MainWindow.main_window) :
  credentials_set w = true → is_Some (MainWindow.region w) →
  MainWindow.start_checks w = inl UnboundLocalError.
Proof.
  unfold credentials_set, MainWindow.start_checks.
  intros [Hkey Hocr]%andb_prop [r Hr]. rewrite Hkey, Hr. cbn [negb].
  destruct (MainWindow.ocr_mode_var w);
    apply andb_prop in Hocr as [-> ->]; reflexivity.
Qed.

Lemma start_checks_unbound_witness :
  credentials_set unmarked_window = true ∧
  is_Some (MainWindow.region unmarked_window) ∧
  MainWindow.start_checks unmarked_window = inl UnboundLocalError.
Proof.
  split; [reflexivity|]. split; [by eexists|].
  apply (start_checks_unbound unmarked_window); [reflexivity|by eexists].
Defined.

(** C9 at the failing input: a fixed-page start with basic recognition and
    no marked option positions is not answered with the configuration
    error [NeedOptionPositions]; it ends in the handler for unexpected
    exceptions, on the [UnboundLocalError] for [scroll_mode]. *)
Theorem start_without_positions :
  MainWindow._on_start_button_click unmarked_window = MainWindow.StartFailed UnboundLocalError ∧
  MainWindow._on_start_button_click unmarked_window
    ≠ MainWindow.ConfigurationError MainWindow.NeedOptionPositions.
Proof. split; [by vm_compute|]. by vm_compute. Qed.

(** The controller itself does not check: called without positions in the
    basic mode, an iteration gets as far as the first click and fails there
    with the [TypeError] of [option in None]. *)
Lemma single_question_without_positions
    (region : rect) (next_button_pos : option (Z * Z)) (auto_next : bool)
    (i : Z) (is_last : bool) (env : iteration_env) (s : gset Z)
    (words_result : list word_item) (answer o : str) (os : list str) :
  n_capture env = None → n_response env = Some words_result →
  n_oracle env = inr answer → parse_answer answer = o :: os →
  outcome (_answer_single_question region None next_button_pos general_basic
             auto_next i is_last env s)
  = inl (Exception ClickStage TypeError).
Proof.
  intros Hcap Hresp Horacle Hparse.
  assert (wp any_effect
            (_answer_single_question region None next_button_pos general_basic
               auto_next i is_last env)
            (fun r _ => r = inl (Exception ClickStage TypeError)) s)
    as (_ & _ & H); [|exact H].
  unfold _answer_single_question, capture_region, call_recognize_text,
    analyze_question.
  rewrite Hcap, Hresp, Horacle. cbn [recognize_text].
  repeat (wp_step; try done). rewrite Hparse. cbn [click_marked_options].
  repeat (wp_step; try done).
Qed.

Lemma single_question_without_positions_witness :
  n_capture sample_iteration = None ∧
  outcome (_answer_single_question (Rect 0 0 800 600) None None general_basic
             false 1 false sample_iteration ∅)
  = inl (Exception ClickStage TypeError).
Proof.
  split; [reflexivity|].
  apply (single_question_without_positions (Rect 0 0 800 600) None false 1 false
           sample_iteration ∅ (default [] (n_response sample_iteration))
           (lit "B") (lit "B") []); reflexivity.
Defined.


(** * Further properties *)

(** ** Trimming and tokens *)

Section trimming.
Implicit Types (s p t : str) (c : N).

Lemma lstrip_nonspace s c t : lstrip s = c :: t → isspace c = false.
Proof.
  induction s as [|a s IH]; simpl; [done|].
  destruct (isspace a) eqn:Ha; [exact IH|]. by intros [= <- _].
Qed.

Lemma lstrip_fixed s :
  match s with c :: _ => isspace c = false | [] => True end → lstrip s = s.
Proof. destruct s as [|c s]; simpl; [done|]. by intros ->. Qed.

Lemma lstrip_idem s : lstrip (lstrip s) = lstrip s.
Proof.
  apply lstrip_fixed. destruct (lstrip s) as [|c t] eqn:E; [done|].
  by eapply lstrip_nonspace.
Qed.

Lemma lstrip_app_nonspace s c :
  isspace c = false → lstrip (s ++ [c]) = lstrip s ++ [c].
Proof.
  intros Hc. induction s as [|a s IH]; simpl; [by rewrite Hc|].
  by destruct (isspace a).
Qed.

Lemma rstrip_cons_nonspace s c : isspace c = false → rstrip (c :: s) = c :: rstrip s.
Proof.
  intros Hc. unfold rstrip.
  by rewrite reverse_cons, lstrip_app_nonspace, reverse_app, reverse_singleton.
Qed.

Lemma rstrip_idem s : rstrip (rstrip s) = rstrip s.
Proof. unfold rstrip. by rewrite reverse_involutive, lstrip_idem. Qed.

Lemma strip_idem s : strip (strip s) = strip s.
Proof.
  unfold strip. destruct (lstrip s) as [|c t] eqn:E; [done|].
  pose proof (lstrip_nonspace _ _ _ E) as Hc.
  rewrite (rstrip_cons_nonspace t c Hc). simpl. rewrite Hc.
  by rewrite <- (rstrip_cons_nonspace _ c Hc), rstrip_idem.
Qed.

Lemma split_comma_no_comma s p : p ∈ split_comma s → comma ∉ p.
Proof.
  revert p. induction s as [|c s IH]; intros p; simpl.
  - intros ->%list_elem_of_singleton. by intros ?%elem_of_nil.
  - case_bool_decide as Hc.
    + intros [->|Hp]%elem_of_cons; [by intros ?%elem_of_nil|by apply IH].
    + destruct (split_comma s) as [|q qs].
      { intros ->%list_elem_of_singleton [E|[]%elem_of_nil]%elem_of_cons. congruence. }
      intros [->|Hp]%elem_of_cons.
      * intros [E|Hq]%elem_of_cons; [congruence|]. by apply (IH q); [left|].
      * apply IH. by right.
Qed.

Lemma split_comma_join t tokens :
  Forall (fun t => comma ∉ t) (t :: tokens) →
  split_comma (join_comma (t :: tokens)) = t :: tokens.
Proof.
  assert (∀ t rest, comma ∉ t →
            split_comma (t ++ comma :: rest) = t :: split_comma rest) as Hhead.
  { intros u rest. induction u as [|c u IH]; simpl; intros Hu.
    - done.
    - rewrite bool_decide_eq_false_2 by (intros ->; apply Hu; left).
      rewrite IH; [done|]. intros ?. apply Hu. by right. }
  assert (∀ t, comma ∉ t → split_comma t = [t]) as Hlast.
  { intros u. induction u as [|c u IH]; simpl; intros Hu; [done|].
    rewrite bool_decide_eq_false_2 by (intros ->; apply Hu; left).
    rewrite IH; [done|]. intros ?. apply Hu. by right. }
  revert t. induction tokens as [|t' tokens IH]; intros t Hall.
  - apply Hlast. by inversion Hall.
  - inversion Hall as [|? ? Ht Hrest]; subst.
    change (join_comma (t :: t' :: tokens)) with (t ++ comma :: join_comma (t' :: tokens)).
    by rewrite Hhead, IH.
Qed.

End trimming.

(** A token of a parsed answer: trimmed, without comma, and non-empty
    unless the answer is blank without comma. *)
Lemma parse_answer_tokens_inv (answer t : str) :
  t ∈ parse_answer answer →
  t ≠ [] ∨ (strip answer = [] ∧ comma ∉ answer).
Proof.
  unfold parse_answer. case_bool_decide as He; [by intros ?%elem_of_nil|].
  case_bool_decide as Hc.
  - intros [Ht Hin]%list_elem_of_filter. by left.
  - intros ->%list_elem_of_singleton.
    destruct (decide (strip answer = [])) as [E|E]; [right|by left].
    split; [done|]. by rewrite <- comma_in_strip.
Qed.

(** X1: every token [parse_answer] returns is trimmed and free of commas,
    and a token is empty only when the answer is blank and has no comma. *)
Theorem parse_answer_tokens (answer t : str) :
  t ∈ parse_answer answer →
  strip t = t ∧ (comma ∉ t) ∧ (t = [] → strip answer = [] ∧ comma ∉ answer).
Proof.
  unfold parse_answer. case_bool_decide as He; [by intros ?%elem_of_nil|].
  case_bool_decide as Hc.
  - intros [Ht Hin]%list_elem_of_filter.
    apply list_elem_of_fmap in Hin as (p & -> & Hp). split_and!; [apply strip_idem| |done].
    rewrite comma_in_strip. by eapply split_comma_no_comma.
  - intros ->%list_elem_of_singleton. split_and!; [apply strip_idem|done|].
    intros E. split; [done|]. by rewrite <- comma_in_strip.
Qed.

Lemma parse_answer_tokens_witness :
  lit "C" ∈ parse_answer (lit "A, C") ∧
  strip (lit "C") = lit "C" ∧ (comma ∉ lit "C") ∧
  (lit "C" = [] → strip (lit "A, C") = [] ∧ comma ∉ lit "A, C").
Proof.
  split; [by vm_compute; right; left|].
  apply (parse_answer_tokens (lit "A, C") (lit "C")). vm_compute. right. left.
Defined.

(** X2: joining option tokens with commas and parsing the result gives the
    tokens back, when each token is non-empty, trimmed and free of commas. *)
Theorem parse_answer_join (tokens : list str) :
  Forall (fun t => t ≠ [] ∧ strip t = t ∧ comma ∉ t) tokens →
  parse_answer (join_comma tokens) = tokens.
Proof.
  intros Hall. destruct tokens as [|t [|t' tokens]].
  - reflexivity.
  - apply Forall_singleton in Hall as (Hne & Htrim & Hcomma). simpl.
    unfold parse_answer. rewrite bool_decide_eq_false_2 by done.
    rewrite Htrim. by rewrite bool_decide_eq_false_2.
  - assert (comma ∈ join_comma (t :: t' :: tokens)) as Hin.
    { change (join_comma (t :: t' :: tokens))
        with (t ++ comma :: join_comma (t' :: tokens)).
      apply elem_of_app. right. left. }
    unfold parse_answer. rewrite bool_decide_eq_false_2.
    2:{ intros E. rewrite E in Hin. by apply elem_of_nil in Hin. }
    rewrite bool_decide_eq_true_2 by by apply comma_in_strip.
    rewrite strip_split_strip, split_comma_join.
    2:{ eapply Forall_impl; [exact Hall|]. by intros ? (_ & _ & ?). }
    generalize (t :: t' :: tokens), Hall. clear.
    induction 1 as [|u us (Hne & Htrim & _) _ IH]; [done|].
    rewrite fmap_cons, filter_cons, decide_True; rewrite Htrim; [|done].
    by rewrite IH.
Qed.

Lemma parse_answer_join_witness :
  Forall (fun t => t ≠ [] ∧ strip t = t ∧ comma ∉ t) [lit "A"; [dui]; lit "C"] ∧
  parse_answer (join_comma [lit "A"; [dui]; lit "C"]) = [lit "A"; [dui]; lit "C"].
Proof.
  assert (Forall (fun t => t ≠ [] ∧ strip t = t ∧ comma ∉ t) [lit "A"; [dui]; lit "C"])
    as Hall.
  { repeat constructor; try done; vm_compute;
      intros H; repeat (apply elem_of_cons in H as [H|H]; [discriminate H|]);
      by apply elem_of_nil in H. }
  split; [exact Hall|]. exact (parse_answer_join _ Hall).
Defined.

(** ** The answer oracle client *)

(** X3: whatever the service replies, [AIService.analyze_question] raises
    nothing but [AIException], and an answer it returns is non-empty and
    trimmed, came from a non-empty question and a supported model, and
    parses into tokens none of which is empty. *)
Theorem analyze_question_result (question_text model : str) (reply : option str) :
  match AIService.analyze_question question_text model reply with
  | inl e => e = AIException
  | inr answer =>
      answer ≠ [] ∧ strip answer = answer ∧
      question_text ≠ [] ∧ model ∈ AIService.SUPPORTED_MODELS ∧
      Forall (fun t => t ≠ []) (parse_answer answer)
  end.
Proof.
  unfold AIService.analyze_question.
  case_bool_decide as Hq; [done|]. case_bool_decide as Hm; [done|].
  destruct reply as [content|]; [|done]. simpl.
  case_bool_decide as Ha; [done|].
  split_and!; [done|apply strip_idem|done| |].
  - by destruct (decide (model ∈ AIService.SUPPORTED_MODELS)).
  - apply Forall_forall. intros t Ht.
    destruct (parse_answer_tokens_inv (strip content) t Ht) as [Hne|[E _]]; [done|].
    by rewrite strip_idem in E.
Qed.


(** ** Masking of stored credentials *)

(** X4: [mask_api_key] keeps the length of the key and replaces by a star
    every character except the first four of a key longer than four and
    the last four of a key longer than eight; a key of at most four
    characters is hidden entirely. *)
Theorem mask_api_key_hides (key : str) :
  length (ConfigManager.mask_api_key key) = length key ∧
  ∀ i, (i < length key)%nat →
    ConfigManager.mask_api_key key !! i =
      if decide (4 < length key ∧ (i < 4 ∨ 8 < length key ∧ length key - 4 ≤ i))%nat
      then key !! i
      else Some ConfigManager.star.
Proof.
  unfold ConfigManager.mask_api_key.
  case_bool_decide as Hnil; [subst; split; [done|simpl; lia]|].
  case_bool_decide as H8; [case_bool_decide as H4|].
  - split; [by rewrite length_replicate|]. intros i Hi.
    rewrite decide_False by lia. by apply lookup_replicate_2.
  - split.
    { rewrite length_app, length_take, length_replicate. lia. }
    intros i Hi. destruct (decide (i < 4)%nat) as [Hlt|Hge].
    + rewrite decide_True by lia.
      rewrite lookup_app_l by (rewrite length_take; lia). by apply lookup_take_lt.
    + rewrite decide_False by lia.
      rewrite lookup_app_r by (rewrite length_take; lia).
      apply lookup_replicate_2. rewrite length_take. lia.
  - split.
    { rewrite !length_app, length_take, length_replicate, length_drop. lia. }
    intros i Hi. destruct (decide (i < 4)%nat) as [Hlt|Hge].
    + rewrite decide_True by lia.
      rewrite lookup_app_l by (rewrite length_take; lia). by apply lookup_take_lt.
    + rewrite lookup_app_r by (rewrite length_take; lia).
      rewrite length_take_le by lia.
      destruct (decide (length key - 4 ≤ i)%nat) as [Hlast|Hmid].
      * rewrite decide_True by lia.
        rewrite lookup_app_r by (rewrite length_replicate; lia).
        rewrite length_replicate, lookup_drop. f_equal. lia.
      * rewrite decide_False by lia.
        rewrite lookup_app_l by (rewrite length_replicate; lia).
        apply lookup_replicate_2. lia.
Qed.

Example mask_api_key_examples :
  ConfigManager.mask_api_key (lit "sk-1234567890abcd") = lit "sk-1*********abcd" ∧
  ConfigManager.mask_api_key (lit "abcdef") = lit "abcd**" ∧
  ConfigManager.mask_api_key (lit "abc") = lit "***" ∧
  ConfigManager.mask_api_key (lit "") = lit "".
Proof. by split_and!. Qed.

(** ** Selecting the region *)

(** X5: a press followed by a release gives the bounding box of the two
    points, whichever way the mouse was dragged: [x1 ≤ x2] and [y1 ≤ y2],
    with a side of length zero exactly when the two points agree in that
    coordinate; a release that no press preceded raises [TypeError]. *)
Theorem region_selector_bounding_box (sel : RegionSelector.selector) (px py rx ry : Z) :
  (∃ r, RegionSelector._on_release (RegionSelector._on_press sel px py) rx ry = inr r ∧
        RegionSelector._on_release (RegionSelector._on_press sel rx ry) px py = inr r ∧
        x1 r ≤ x2 r ∧ y1 r ≤ y2 r ∧
        x2 r - x1 r = Z.abs (rx - px) ∧ y2 r - y1 r = Z.abs (ry - py) ∧
        (x1 r = x2 r ↔ px = rx) ∧ (y1 r = y2 r ↔ py = ry)) ∧
  RegionSelector._on_release RegionSelector.init rx ry = inl TypeError.
Proof.
  split; [|done]. eexists. split; [reflexivity|]. simpl.
  split_and!; try lia; try (split; lia).
  unfold RegionSelector._on_release, RegionSelector._on_press. simpl.
  f_equal. f_equal; lia.
Qed.

(** ** Marking the options by hand *)

(** X6: the option marker finishes exactly at its fifth event (click or
    Escape) and never fails; the positions it hands over are those of the
    clicks among the first four events, under the labels A, B, C, D in this
    order, and the "next" position is the fifth event's if it is a click. *)
Theorem option_marker_result (evs : list OptionMarker.marker_event) :
  match OptionMarker.mark OptionMarker.init evs with
  | OptionMarker.Finished r => (5 ≤ length evs)%nat ∧ r = marked_by evs
  | OptionMarker.Pending m =>
      (length evs < 5)%nat ∧ OptionMarker.current_index m = length evs
  | OptionMarker.IndexError => False
  end.
Proof.
  destruct evs as [|[x0 y0|] [|[x1 y1|] [|[x2 y2|] [|[x3 y3|] [|[x4 y4|] rest]]]]];
    (split; [simpl; lia|by vm_compute]).
Qed.

(** The labels the marker stores a position under. *)
Lemma mark_labels (m : OptionMarker.marker) (evs : list OptionMarker.marker_event)
    (result : MainWindow.marked_positions) :
  OptionMarker.mark m evs = OptionMarker.Finished result →
  (∀ label, is_Some (MainWindow.options (OptionMarker.positions m) !! label) →
            label ∈ [lit "A"; lit "B"; lit "C"; lit "D"]) →
  ∀ label, is_Some (MainWindow.options result !! label) →
           label ∈ [lit "A"; lit "B"; lit "C"; lit "D"].
Proof.
  revert m. induction evs as [|[x y|] evs IH]; intros m; cbn [OptionMarker.mark]; [done| |].
  - unfold OptionMarker._on_click.
    destruct (OptionMarker.marking_sequence !! OptionMarker.current_index m)
      as [current|] eqn:Ecur; cbn [mbind option_bind]; [|done].
    assert (current = OptionMarker.next_label ∨
            current ∈ [lit "A"; lit "B"; lit "C"; lit "D"]) as Hcur.
    { apply list_elem_of_lookup_2 in Ecur. unfold OptionMarker.marking_sequence in Ecur.
      rewrite !elem_of_cons in Ecur. rewrite !elem_of_cons. naive_solver. }
    cbn zeta.
    set (positions' := if bool_decide (current = OptionMarker.next_label)
                       then _ else _).
    assert ((∀ label, is_Some (MainWindow.options (OptionMarker.positions m) !! label) →
                      label ∈ [lit "A"; lit "B"; lit "C"; lit "D"]) →
            ∀ label, is_Some (MainWindow.options positions' !! label) →
                     label ∈ [lit "A"; lit "B"; lit "C"; lit "D"]) as Hstep.
    { intros Hm label Hl. unfold positions' in Hl.
      case_bool_decide as Hnext; cbn [MainWindow.options] in Hl.
      - by apply Hm.
      - apply lookup_insert_is_Some in Hl as [<-|[_ Hl]]; [|by apply Hm].
        by destruct Hcur. }
    clearbody positions'. unfold OptionMarker.advance.
    cbn [OptionMarker.positions OptionMarker.current_index].
    case_bool_decide.
    + intros Hmark Hm. eapply IH; [exact Hmark|]. by apply Hstep.
    + intros [= <-] Hm. by apply Hstep.
  - unfold OptionMarker._on_cancel, OptionMarker.advance.
    cbn [OptionMarker.positions OptionMarker.current_index]. case_bool_decide.
    + intros Hmark Hm. by eapply IH.
    + by intros [= <-] Hm.
Qed.

(** Every click of [click_marked_options] is at the position marked for a
    token of the answer. *)
Lemma wp_click_marked_at q positions all_options answer_options raises
    (Q : exn + unit → gset Z → Prop) s :
  answer_options ⊆ all_options → (∀ r, Q r s) →
  wp (fun _ ev => ∀ q' x y, ev = Click q' x y →
                  ∃ label, label ∈ all_options ∧ positions !! label = Some (x, y))
     (click_marked_options q (Some positions) answer_options raises) Q s.
Proof.
  intros Hsub HQ. revert raises.
  induction answer_options as [|o os IH]; intros raises; cbn [click_marked_options];
    [by wp_step|].
  assert (os ⊆ all_options) as Hos by set_solver.
  destruct (positions !! o) as [[x y]|] eqn:Eo.
  - unfold click_position. wp_step. wp_step. wp_step.
    { intros q' x' y' [= -> -> ->]. exists o. split; [set_solver|done]. }
    destruct (hd false raises); [by wp_step|].
    wp_step; [done|]. wp_step. wp_step; [done|]. by apply IH.
  - wp_step. wp_step; [done|]. by apply IH.
Qed.

(** X7: when the option marker has finished, the positions it hands over
    hold no label other than A, B, C or D; so, with these positions, every
    click the fixed-page loop makes for an answer is at the point marked for
    one of these four labels named in the answer, and an answer of tokens
    outside the four (E, F, 对, 错, ...) is logged token by token as unmarked
    and clicks nothing. *)
Theorem hand_marked_labels (evs : list OptionMarker.marker_event)
    (result : MainWindow.marked_positions)
    (question_num : Z) (answer_options : list str) (raises : list bool) (s : gset Z) :
  OptionMarker.mark OptionMarker.init evs = OptionMarker.Finished result →
  let r := click_marked_options question_num (Some (MainWindow.options result))
             answer_options raises s in
  (∀ label, is_Some (MainWindow.options result !! label) →
            label ∈ [lit "A"; lit "B"; lit "C"; lit "D"]) ∧
  (∀ t q x y, (t, Click q x y) ∈ events r →
     ∃ label, label ∈ answer_options ∧ label ∈ [lit "A"; lit "B"; lit "C"; lit "D"] ∧
              MainWindow.options result !! label = Some (x, y)) ∧
  (Forall (fun token => token ∉ [lit "A"; lit "B"; lit "C"; lit "D"]) answer_options →
   r = Run ((fun token => (s, Log (LogUnmarked question_num token))) <$> answer_options)
         s (inr tt)).
Proof.
  intros Hmark. cbn zeta.
  assert (∀ label, is_Some (MainWindow.options result !! label) →
                   label ∈ [lit "A"; lit "B"; lit "C"; lit "D"]) as Hlabels.
  { eapply mark_labels; [exact Hmark|]. cbn. intros label [? Hl].
    by rewrite lookup_empty in Hl. }
  split_and!; [done| |].
  - intros t q x y Hin.
    destruct (wp_click_marked_at question_num (MainWindow.options result)
                answer_options answer_options raises (fun _ _ => True) s)
      as (_ & Hev & _); [done..|].
    rewrite Forall_forall in Hev.
    destruct (Hev _ Hin q x y eq_refl) as (label & Hl & Hpos).
    exists label. split_and!; [done| |done]. apply Hlabels. by rewrite Hpos.
  - revert raises. induction answer_options as [|o os IH]; intros raises Hall; [done|].
    apply Forall_cons in Hall as [Ho Hos]. cbn [click_marked_options].
    destruct (MainWindow.options result !! o) as [pt|] eqn:Eo.
    { exfalso. apply Ho, Hlabels. by rewrite Eo. }
    erewrite bind_inr by reflexivity. rewrite (IH raises Hos). reflexivity.
Qed.

Lemma hand_marked_labels_witness :
  let evs := [OptionMarker.MouseClick 10 20; OptionMarker.MouseClick 10 60;
              OptionMarker.Escape; OptionMarker.MouseClick 10 140;
              OptionMarker.MouseClick 300 400] in
  let result := MainWindow.MarkedPositions
                  {[ lit "A" := (10, 20); lit "B" := (10, 60); lit "D" := (10, 140) ]}
                  (Some (300, 400)) in
  let r := click_marked_options 1 (Some (MainWindow.options result))
             [lit "A"; [dui]] [] ∅ in
  OptionMarker.mark OptionMarker.init evs = OptionMarker.Finished result ∧
  (∀ label, is_Some (MainWindow.options result !! label) →
            label ∈ [lit "A"; lit "B"; lit "C"; lit "D"]) ∧
  (∀ t q x y, (t, Click q x y) ∈ events r →
     ∃ label, label ∈ [lit "A"; [dui]] ∧ label ∈ [lit "A"; lit "B"; lit "C"; lit "D"] ∧
              MainWindow.options result !! label = Some (x, y)) ∧
  (Forall (fun token => token ∉ [lit "A"; lit "B"; lit "C"; lit "D"]) [lit "A"; [dui]] →
   r = Run ((fun token => (∅, Log (LogUnmarked 1 token))) <$> [lit "A"; [dui]])
         ∅ (inr tt)).
Proof.
  intros evs result r.
  assert (OptionMarker.mark OptionMarker.init evs = OptionMarker.Finished result)
    as Hmark by (by vm_compute).
  split; [exact Hmark|].
  exact (hand_marked_labels evs result 1 [lit "A"; [dui]] [] ∅ Hmark).
Defined.

(** The same marking and the answer [A, 对]: one click, at the point marked
    for A, and one line for the unmarked token. *)
Example hand_marked_run :
  click_marked_options 1
    (Some {[ lit "A" := (10, 20); lit "B" := (10, 60); lit "D" := (10, 140) ]})
    [lit "A"; [dui]] [] ∅
  = Run [(∅, Click 1 10 20); (∅, Sleep); (∅, Log (LogClicked 1 (lit "A") 10 20));
         (∅, Log (LogUnmarked 1 [dui]))] ∅ (inr tt).
Proof. by vm_compute. Qed.


(** ** What the extractors put into their maps *)

Lemma last_filter_is_Some {A} (P : A → Prop) `{!∀ x, Decision (P x)} (l : list A) :
  is_Some (last (filter P l)) ↔ ∃ x, x ∈ l ∧ P x.
Proof.
  rewrite last_is_Some. split.
  - destruct (filter P l) as [|x l'] eqn:E; [done|]. intros _. exists x.
    assert (x ∈ filter P l) as [? ?]%list_elem_of_filter by (rewrite E; left). done.
  - intros (x & Hx & HP) E.
    assert (x ∈ filter P l) as Hin by (by apply list_elem_of_filter).
    rewrite E in Hin. by apply elem_of_nil in Hin.
Qed.

Lemma head_filter_is_Some {A} (P : A → Prop) `{!∀ x, Decision (P x)} (l : list A) :
  is_Some (head (filter P l)) ↔ ∃ x, x ∈ l ∧ P x.
Proof.
  rewrite head_is_Some. split.
  - destruct (filter P l) as [|x l'] eqn:E; [done|]. intros _. exists x.
    assert (x ∈ filter P l) as [? ?]%list_elem_of_filter by (rewrite E; left). done.
  - intros (x & Hx & HP) E.
    assert (x ∈ filter P l) as Hin by (by apply list_elem_of_filter).
    rewrite E in Hin. by apply elem_of_nil in Hin.
Qed.

Lemma option_label_marker (item : word_item) (label : str) :
  labels label item → label ∈ option_markers.
Proof.
  unfold labels, option_label. intros H%List.find_some. apply list_elem_of_In, H.
Qed.

(** X8: the map of [_extract_option_positions] has a point for a label
    exactly when some word of the capture matches that label, and its keys
    are always among the eight option markers. *)
Theorem extract_option_positions_domain
    (words_result : list word_item) (region : rect) (label : str) :
  (is_Some (_extract_option_positions words_result region !! label)
   ↔ ∃ item, item ∈ words_result ∧ labels label item) ∧
  (is_Some (_extract_option_positions words_result region !! label)
   → label ∈ option_markers).
Proof.
  assert (is_Some (_extract_option_positions words_result region !! label)
          ↔ ∃ item, item ∈ words_result ∧ labels label item) as Hiff.
  { unfold _extract_option_positions.
    rewrite extract_option_positions_from, lookup_empty.
    pose proof (last_filter_is_Some (labels label) words_result) as Hl.
    destruct (last (filter (labels label) words_result)) as [item|].
    - split; [intros _; apply Hl; by eexists|by eexists].
    - split; [by intros [? [=]]|]. intros H. by apply Hl in H as [? [=]]. }
  split; [exact Hiff|]. intros (item & _ & Hl)%Hiff. by eapply option_label_marker.
Qed.

Lemma int_nonneg (s : str) (n : Z) : int s = Some n → 0 ≤ n.
Proof.
  unfold int. case_bool_decide as Hlen; [done|]. intros [= <-]. clear Hlen.
  enough (∀ acc, 0 ≤ acc →
            0 ≤ fold_left (fun acc c => 10 * acc + default 0 (digit_value c)) s acc)
    as H0 by (by apply H0).
  induction s as [|c s IH]; intros acc Hacc; simpl; [done|].
  apply IH. unfold digit_value.
  destruct (List.find _ digit_zeros); simpl; lia.
Qed.

Lemma question_marker_nonneg (item : word_item) (shape : question_shape) (n : Z) :
  question_marker item = Some (shape, n) → 0 ≤ n.
Proof.
  unfold question_marker.
  destruct (question_match item) as [[shape' g]|]; cbn; [|done].
  destruct (int g) as [k|] eqn:E; cbn; [|done].
  intros [= _ <-]. by eapply int_nonneg.
Qed.

(** X9: [_extract_question_numbers] raises exactly when some word of the
    capture is matched with a number that [int] refuses (more than 4300
    digits).  The map it returns otherwise has an entry for an id exactly
    when some word of the capture is matched with that id; the recorded
    offset is the top of such a word; and an id is never negative (it can
    be zero). *)
Theorem extract_question_numbers_domain (words_result : list word_item) (n : Z) :
  (_extract_question_numbers words_result = None
   ↔ ∃ item, item ∈ words_result ∧ overlong item) ∧
  ∀ question_numbers,
    _extract_question_numbers words_result = Some question_numbers →
    (is_Some (question_numbers !! n)
     ↔ ∃ item, item ∈ words_result ∧ numbers n item) ∧
    (∀ q, question_numbers !! n = Some q →
          0 ≤ n ∧ ∃ item, item ∈ words_result ∧ numbers n item ∧
                          y q = loc_top (word_location item)).
Proof.
  split; [apply question_steps_None|]. intros question_numbers Hsome.
  pose proof (extract_question_numbers_from _ _ _ n Hsome) as Hlookup.
  rewrite lookup_empty in Hlookup.
  assert (∀ item shape, numbers_as shape n item → numbers n item) as Hshape.
  { intros item shape. unfold numbers_as, numbers. by intros ->. }
  assert (∀ q, question_numbers !! n = Some q →
               ∃ item, item ∈ words_result ∧ numbers n item ∧
                       y q = loc_top (word_location item)) as Hsound.
  { intros q. rewrite Hlookup.
    destruct (last (filter (numbers_as ExactShape n) words_result)) as [item|] eqn:El.
    - intros [= <-]. exists item.
      assert (item ∈ filter (numbers_as ExactShape n) words_result) as Hin
        by (by apply last_Some_elem_of).
      apply list_elem_of_filter in Hin as [Hn Hin]. split_and!; [done| |done].
      by eapply Hshape.
    - destruct (head (filter (numbers_as LooseShape n) words_result)) as [item|] eqn:Eh;
        [|done].
      intros [= <-]. exists item.
      assert (item ∈ filter (numbers_as LooseShape n) words_result) as Hin
        by (by apply head_Some_elem_of).
      apply list_elem_of_filter in Hin as [Hn Hin]. split_and!; [done| |done].
      by eapply Hshape. }
  split.
  - split.
    + intros [q Hq]. destruct (Hsound q Hq) as (item & ? & ? & _). by exists item.
    + intros (item & Hin & Hn). rewrite Hlookup.
      unfold numbers in Hn.
      destruct (question_marker item) as [[shape k]|] eqn:Em; [|done].
      injection Hn as ->.
      destruct (last (filter (numbers_as ExactShape n) words_result)) eqn:El;
        [by eexists|].
      destruct shape.
      * assert (is_Some (last (filter (numbers_as ExactShape n) words_result))) as [? E].
        { apply last_filter_is_Some. by exists item. }
        congruence.
      * assert (is_Some (head (filter (numbers_as LooseShape n) words_result))) as [? E].
        { apply head_filter_is_Some. by exists item. }
        rewrite E. by eexists.
  - intros q Hq. destruct (Hsound q Hq) as (item & Hin & Hn & Hy).
    split; [|by exists item]. unfold numbers in Hn.
    destruct (question_marker item) as [[shape k]|] eqn:Em; [|done].
    injection Hn as ->. by eapply question_marker_nonneg.
Qed.

Example question_id_zero :
  _extract_question_numbers [word_at (lit "0.") 0 5 0 0]
    = Some {[ 0 := QuestionPos 5 ]}.
Proof. by vm_compute. Qed.

(** ** Turning the wheel *)

(** The run of [_scroll_page] when the mouse does not fail. *)
Lemma scroll_page_run (distance : Z) (center : Z * Z) (s : gset Z) :
  _scroll_page distance center None s
  = Run ((s, MoveTo center.1 center.2) ::
         (if decide (0 ≤ distance < 120) then []
          else [(s, Scroll (- (distance / 120)));
                (s, Log (LogScrolled distance (- (distance / 120))));
                (s, Sleep)]))
        s (inr tt).
Proof.
  unfold _scroll_page. cbn beta iota zeta.
  rewrite (bind_inr _ _ s [(s, MoveTo center.1 center.2)] s tt) by reflexivity.
  rewrite (bind_inr _ _ s [] s tt) by reflexivity. rewrite prepend_nil.
  destruct (decide (0 ≤ distance < 120)) as [Hd|Hd].
  - rewrite (bool_decide_eq_false_2 (- (distance / 120) ≠ 0)); [reflexivity|].
    intros Hc. apply Hc. rewrite Z.div_small by lia. done.
  - rewrite (bool_decide_eq_true_2 (- (distance / 120) ≠ 0)).
    2:{ intros E. apply Hd. assert (distance / 120 = 0) as E' by lia.
        apply Z.div_small_iff in E'; lia. }
    rewrite (bind_inr _ _ s [(s, Scroll (- (distance / 120)))] s tt) by reflexivity.
    rewrite (bind_inr _ _ s [] s tt) by reflexivity. rewrite prepend_nil.
    rewrite (bind_inr _ _ s [(s, Log (LogScrolled distance (- (distance / 120))))] s tt)
      by reflexivity.
    reflexivity.
Qed.

(** Whichever call fails, a wheel event of [_scroll_page] carries the
    number of clicks computed from the distance, which is not zero. *)
Lemma wp_scroll_page_wheel (distance : Z) (center : Z * Z)
    (raises : option scroll_call) (s : gset Z) :
  wp (fun _ ev => ∀ c, ev = Scroll c → c = - (distance / 120) ∧ c ≠ 0)
     (_scroll_page distance center raises) (fun _ s' => s' = s) s.
Proof.
  unfold _scroll_page.
  wp_step. wp_step; [done|].
  wp_step. destruct (bool_decide (raises = Some MoveToCall)); [by wp_step|]. wp_step.
  case_bool_decide as Hc; [|by wp_step].
  wp_step. wp_step; [by intros c [= <-]|].
  wp_step. destruct (bool_decide (raises = Some ScrollCall)); [by wp_step|]. wp_step.
  wp_step. wp_step; [done|].
  destruct (bool_decide (raises = Some SleepCall)); by wp_step.
Qed.

(** X10: [_scroll_page] sends no wheel event for a distance of 0 to 119
    pixels; otherwise it turns the wheel by [-(distance // 120)] clicks, which
    for a distance that is not negative is downwards, by at most the
    distance and short of it by less than 120 pixels. *)
Theorem scroll_page_wheel (distance : Z) (center : Z * Z) (s : gset Z) :
  _scroll_page distance center None s
  = Run ((s, MoveTo center.1 center.2) ::
         (if decide (0 ≤ distance < 120) then []
          else [(s, Scroll (- (distance / 120)));
                (s, Log (LogScrolled distance (- (distance / 120))));
                (s, Sleep)]))
        s (inr tt) ∧
  (0 ≤ distance →
   0 ≤ 120 * (distance / 120) ≤ distance ∧ distance < 120 * (distance / 120) + 120).
Proof.
  split; [apply scroll_page_run|].
  intros Hd. pose proof (Z.mul_div_le distance 120 ltac:(lia)).
  pose proof (Z.mul_succ_div_gt distance 120 ltac:(lia)).
  pose proof (Z.div_pos distance 120 Hd ltac:(lia)). lia.
Qed.

(** Every wheel event of [scroll_on]. *)
Lemma scroll_on_wheel (scroll_overlap : Z) (question_numbers : gmap Z question_pos)
    (h : Z) (center : Z * Z) (raises : option scroll_call) (s s' : gset Z) (c : Z) :
  (s', Scroll c) ∈ events (scroll_on scroll_overlap question_numbers h center raises s) →
  ∃ d, _calculate_scroll_distance question_numbers h scroll_overlap = Some d ∧
       c = - (d / 120) ∧ c ≠ 0.
Proof.
  unfold scroll_on.
  destruct (_calculate_scroll_distance question_numbers h scroll_overlap) as [d|];
    [|by intros ?%elem_of_nil].
  erewrite bind_inr by reflexivity. rewrite prepend_nil.
  intros Hin. exists d. split; [done|].
  destruct (wp_scroll_page_wheel d center raises s) as (_ & Hev & _).
  rewrite Forall_forall in Hev. by apply (Hev _ Hin).
Qed.

Lemma calculate_scroll_distance_range (question_numbers : gmap Z question_pos)
    (h o d : Z) :
  0 ≤ o < h → _calculate_scroll_distance question_numbers h o = Some d →
  0 ≤ d ≤ h - o.
Proof.
  intros Hoh. unfold _calculate_scroll_distance.
  case_bool_decide as Hne; [intros [= <-]; lia|].
  destruct (last_question_y_spec _ Hne) as (lastY & -> & _). simpl.
  intros [= <-]. pose proof (Z.div_pos h 2 ltac:(lia) ltac:(lia)). lia.
Qed.

(** X11: with [0 ≤ overlap < h], every wheel event sent after a window
    turns the wheel downwards by at least one click and by at most
    [h - overlap] pixels: the page is never scrolled up and never further
    than one window less the overlap (and not at all when [h - overlap] is
    below 120). *)
Theorem scroll_on_never_overshoots (scroll_overlap : Z)
    (question_numbers : gmap Z question_pos) (h : Z) (center : Z * Z)
    (raises : option scroll_call) (s s' : gset Z) (c : Z) :
  0 ≤ scroll_overlap < h →
  (s', Scroll c) ∈ events (scroll_on scroll_overlap question_numbers h center raises s) →
  c ≤ -1 ∧ 120 * (- c) ≤ h - scroll_overlap.
Proof.
  intros Hoh (d & Hd & -> & Hc)%scroll_on_wheel.
  pose proof (calculate_scroll_distance_range _ _ _ _ Hoh Hd) as Hrange.
  pose proof (Z.div_pos d 120 ltac:(lia) ltac:(lia)).
  pose proof (Z.mul_div_le d 120 ltac:(lia)). lia.
Qed.

Lemma scroll_on_never_overshoots_witness :
  let qn : gmap Z question_pos := {[ 1 := QuestionPos 100; 2 := QuestionPos 400 ]} in
  0 ≤ 150 < 1000 ∧
  (∅, Scroll (-4)) ∈ events (scroll_on 150 qn 1000 (400, 500) None ∅) ∧
  -4 ≤ -1 ∧ 120 * (- -4) ≤ 1000 - 150.
Proof.
  intros qn.
  assert ((∅, Scroll (-4)) ∈ events (scroll_on 150 qn 1000 (400, 500) None ∅)) as Hin.
  { vm_compute. right. left. }
  split; [lia|]. split; [exact Hin|].
  apply (scroll_on_never_overshoots 150 qn 1000 (400, 500) None ∅ ∅ (-4)); [lia|exact Hin].
Defined.

(** ** The start handler never starts *)

(** X12: [_on_start_button_click] never reaches
    [automation_controller.start_answering].  When a session is marked as
    running it stops it; otherwise it shows a configuration error for a
    missing credential or region, and in every other case it ends in the
    handler for unexpected exceptions with the [UnboundLocalError] of
    [scroll_mode]. *)
Theorem start_button_never_starts (w : MainWindow.main_window) :
  match MainWindow._on_start_button_click w with
  | MainWindow.StartAnswering _ => False
  | MainWindow.StopAnswering => MainWindow.is_running w = true
  | MainWindow.ConfigurationError msg =>
      MainWindow.is_running w = false ∧
      (credentials_set w = false ∨ MainWindow.region w = None) ∧
      msg ∈ [MainWindow.NeedDeepSeekKey; MainWindow.NeedBasicApiKey;
             MainWindow.NeedBasicSecretKey; MainWindow.NeedAccurateApiKey;
             MainWindow.NeedAccurateSecretKey; MainWindow.NeedRegion]
  | MainWindow.StartFailed e =>
      MainWindow.is_running w = false ∧ e = UnboundLocalError ∧
      credentials_set w = true ∧ is_Some (MainWindow.region w)
  end.
Proof.
  unfold MainWindow._on_start_button_click.
  destruct (MainWindow.is_running w); [done|]. cbn [negb].
  destruct (credentials_set w) eqn:Hcred.
  - destruct (MainWindow.region w) as [r|] eqn:Hr.
    + rewrite start_checks_unbound; [by eauto|done|by rewrite Hr].
    + unfold MainWindow.start_checks. rewrite Hr.
      unfold credentials_set in Hcred. apply andb_prop in Hcred as [-> Hocr].
      cbn [negb]. destruct (MainWindow.ocr_mode_var w);
        apply andb_prop in Hocr as [-> ->]; cbn [negb];
        (split_and!; [done|by right|set_solver]).
  - unfold MainWindow.start_checks. unfold credentials_set in Hcred.
    destruct (MainWindow.configured w "api_key"); cbn [negb andb] in *.
    2:{ split_and!; [done|by left|set_solver]. }
    destruct (MainWindow.ocr_mode_var w);
      [destruct (MainWindow.configured w "baidu_basic_api_key")
      |destruct (MainWindow.configured w "baidu_accurate_api_key")];
      cbn [negb andb] in *; try rewrite Hcred; cbn [negb];
      (split_and!; [done|by left|set_solver]).
Qed.


(** ** More on the scroll loop *)

Ltac rec_solve := first [done | by intros ? [= <-] | by intros ? ?].
Ltac rec_go := repeat (wp_step; try rec_solve).

Section scroll_more.
Variable region : rect.
Variable option_positions : option (gmap str (Z * Z)).
Variable T : Z.
Variable scroll_overlap : Z.
Implicit Types (s ids : gset Z) (q : Z).

Lemma wp_any_answer_question q text words_result qe (Q : exn + unit → gset Z → Prop) s :
  (∀ e, Q (inl e) s) → Q (inr tt) ({[q]} ∪ s) →
  wp any_effect (answer_question region option_positions q text words_result qe) Q s.
Proof.
  intros Hexn Hret. unfold answer_question, analyze_question.
  wp_go. destruct (q_oracle qe); wp_go.
  apply click_options_keeps_state. intros [e|[]]; [exact (Hexn e)|].
  wp_go. destruct (negb _); wp_go.
Qed.

Lemma answer_questions_all text words_result env unanswered s :
  NoDup unanswered →
  (∀ q, q ∈ unanswered → (q ∉ s) ∧ q_stop (env q) = false) →
  Z.of_nat (size s) + Z.of_nat (length unanswered) ≤ T →
  wp any_effect
     (answer_questions region option_positions T text words_result env unanswered)
     (fun r s' => r = inr tt ∧ s' = s ∪ list_to_set unanswered) s.
Proof.
  intros Hnd. revert s.
  induction Hnd as [|q qs Hq Hnd IH]; intros s Hin Hsize; cbn [answer_questions].
  - wp_step. split; [done|]. set_solver.
  - destruct (Hin q) as [Hqs ->]; [left|].
    wp_step. wp_step. cbn [length] in Hsize.
    rewrite bool_decide_eq_false_2 by lia.
    assert (wp any_effect
              (answer_questions region option_positions T text words_result env qs)
              (fun r s' => r = inr tt ∧ s' = s ∪ list_to_set (q :: qs))
              ({[q]} ∪ s)) as Hrest.
    { eapply wp_mono.
      - apply IH.
        + intros q' Hq'. destruct (Hin q') as [? ?]; [by right|].
          split; [|done]. apply not_elem_of_union. split; [|done].
          intros ->%elem_of_singleton. done.
        + rewrite size_union by set_solver. rewrite size_singleton. lia.
      - intros r s' _ [-> ->]. split; [done|]. set_solver. }
    wp_step. wp_step. apply wp_any_answer_question.
    + intros e. wp_step. wp_step; [done|]. wp_step. exact Hrest.
    + exact Hrest.
Qed.

(** *** Only recognised ids are asked about, clicked for and marked *)

Lemma wp_rec_click_options ids q positions answer_options raises
    (Q : exn + unit → gset Z → Prop) s :
  q ∈ ids → (∀ r, Q r s) →
  wp (recognised ids) (click_options q positions answer_options raises) Q s.
Proof.
  intros Hq HQ. revert raises.
  induction answer_options as [|o os IH]; intros raises; cbn [click_options].
  - by wp_step.
  - destruct (positions !! o) as [[x y]|].
    + unfold click_position. wp_step. wp_step. wp_step; [rec_solve|].
      destruct (hd false raises); [by wp_step|].
      wp_step; [rec_solve|]. wp_step. wp_step; [rec_solve|]. apply IH.
    + wp_step. wp_step; [rec_solve|]. apply IH.
Qed.

Lemma wp_rec_answer_question ids q text words_result qe
    (Q : exn + unit → gset Z → Prop) s :
  q ∈ ids → (∀ e, Q (inl e) s) → Q (inr tt) ({[q]} ∪ s) →
  wp (recognised ids) (answer_question region option_positions q text words_result qe) Q s.
Proof.
  intros Hq Hexn Hret. unfold answer_question, analyze_question.
  wp_step. wp_step. wp_step; [rec_solve|].
  destruct (q_oracle qe); [by wp_step|]. wp_step.
  wp_step. wp_step; [rec_solve|]. wp_step. wp_step; [rec_solve|].
  wp_step. apply wp_rec_click_options; [done|]. intros [e|[]]; [done|].
  wp_step. wp_step. wp_step. wp_step; [rec_solve|].
  destruct (negb _); wp_step; rec_solve.
Qed.

Lemma wp_rec_answer_questions ids text words_result env unanswered
    (Q : exn + unit → gset Z → Prop) s :
  (∀ q, q ∈ unanswered → q ∈ ids) →
  (∀ s', s ⊆ s' → s' ⊆ s ∪ list_to_set unanswered → Q (inr tt) s') →
  wp (recognised ids)
     (answer_questions region option_positions T text words_result env unanswered) Q s.
Proof.
  revert s. induction unanswered as [|q qs IH]; intros s Hids HQ; cbn [answer_questions].
  - wp_step. apply HQ; set_solver.
  - destruct (q_stop (env q)); [wp_step; apply HQ; set_solver|].
    wp_step. wp_step. case_bool_decide; [wp_step; apply HQ; set_solver|].
    assert (wp (recognised ids)
              (answer_questions region option_positions T text words_result env qs)
              Q ({[q]} ∪ s)) as Hrest.
    { apply IH; [intros q' Hq'; apply Hids; by right|].
      intros s' Hs1 Hs2. apply HQ; set_solver. }
    wp_step. wp_step. apply wp_rec_answer_question; [apply Hids; left| |done].
    intros e. wp_step. wp_step; [rec_solve|]. by wp_step.
Qed.

Lemma wp_rec_scroll_page ids distance center raises (Q : exn + unit → gset Z → Prop) s :
  (is_Some raises → Q (inl AutomationException) s) → Q (inr tt) s →
  wp (recognised ids) (_scroll_page distance center raises) Q s.
Proof.
  intros He HQ. unfold _scroll_page.
  wp_step. wp_step; [rec_solve|].
  wp_step. case_bool_decide as Hmove; [wp_step; apply He; by rewrite Hmove|]. wp_step.
  destruct (bool_decide (- (distance / 120) ≠ 0)); [|by wp_step].
  wp_step. wp_step; [rec_solve|].
  wp_step. case_bool_decide as Hwheel; [wp_step; apply He; by rewrite Hwheel|]. wp_step.
  wp_step. wp_step; [rec_solve|].
  case_bool_decide as Hsleep; [wp_step; apply He; by rewrite Hsleep|].
  wp_step; rec_solve.
Qed.

Lemma wp_rec_scroll_on ids question_numbers h center raises
    (Q : exn + unit → gset Z → Prop) s :
  (is_Some raises → Q (inl AutomationException) s) → Q (inr tt) s →
  wp (recognised ids) (scroll_on scroll_overlap question_numbers h center raises) Q s.
Proof.
  intros He HQ. unfold scroll_on.
  destruct (calculate_scroll_distance_total question_numbers h scroll_overlap)
    as [distance ->].
  wp_step. cbn [lift_option]. wp_step. by apply wp_rec_scroll_page.
Qed.

Lemma wp_rec_scroll_loop ids ocr_mode script (Q : exn + loop_end → gset Z → Prop) s :
  script_ids script ⊆ ids →
  (∀ r s', s ⊆ s' → s' ⊆ s ∪ script_ids script → loop_failure script r → Q r s') →
  wp (recognised ids)
     (scroll_loop region option_positions T scroll_overlap ocr_mode script) Q s.
Proof.
  revert ocr_mode s Q.
  induction script as [|w script IH]; intros ocr_mode s Q Hids HQ; cbn [scroll_loop].
  { wp_step. wp_step. case_bool_decide; wp_step; by apply HQ; [done|set_solver|]. }
  assert (∀ r : loop_end, Q (inr r) s) as Hret.
  { intros r. by apply HQ; [done|set_solver|]. }
  assert (is_Some (w_scroll_raises w) → Q (inl AutomationException) s) as Hwheel.
  { intros Hw. apply HQ; [done|set_solver|]. intros e [= <-].
    left. split; [done|]. exists w. split; [left|done]. }
  assert (∀ s', s ⊆ s' → s' ⊆ s ∪ script_ids (w :: script) →
            wp (recognised ids)
               (scroll_loop region option_positions T scroll_overlap accurate_basic script)
               Q s') as Hnext.
  { intros s' Hs1 Hs2. apply IH; [cbn [script_ids] in Hids; set_solver|].
    intros r s'' Hs3 Hs4 Hr. apply HQ.
    - set_solver.
    - cbn [script_ids] in Hs2 |- *. set_solver.
    - intros e He.
      destruct (Hr e He) as [(-> & w' & Hw' & Hraises)|(-> & w' & Hw' & Hlong)].
      + left. split; [done|]. exists w'. split; [by right|done].
      + right. split; [done|]. exists w'. split; [by right|done]. }
  wp_step. wp_step. case_bool_decide as Hsize; [by wp_step|].
  destruct (w_stop w).
  { wp_step. wp_step; [rec_solve|]. by wp_step. }
  (* capture *)
  wp_step. wp_step. wp_step. unfold capture_region. wp_step.
  wp_step; [rec_solve|].
  destruct (w_capture w) as [e|].
  { wp_step. wp_step. wp_step; [rec_solve|]. wp_step. cbn [negb]. by wp_step. }
  wp_step. wp_step. wp_step; [rec_solve|]. wp_step. cbn [negb].
  (* recognition *)
  wp_step. wp_step. wp_step.
  assert (wp (recognised ids)
            (if bool_decide (ocr_mode ≠ accurate_basic)
             then _log LogForceAccurate else mret tt)
            (fun r s' => r = inr tt ∧ s' = s) s) as Hwarn.
  { case_bool_decide; wp_step; rec_solve. }
  eapply wp_mono; [exact Hwarn|]. intros r s' _ [-> ->]. clear Hwarn.
  wp_step. unfold call_recognize_text. wp_step. wp_step; [rec_solve|].
  cbn [script_ids] in Hids, Hnext, HQ.
  destruct (w_response w) as [words_result|] eqn:Hresp; cbn [recognize_text].
  2:{ wp_step. wp_step. wp_step; [rec_solve|]. wp_step. by wp_step. }
  wp_step. wp_step. wp_step.
  destruct (_extract_question_numbers words_result) as [question_numbers|] eqn:Hnum;
    cbn [lift_option].
  2:{ wp_step. apply HQ; [done|set_solver|]. intros e [= <-].
      right. split; [done|]. exists w. split; [left|].
      apply question_steps_None in Hnum as (item & Hin & Hover).
      by exists words_result, item. }
  wp_step.
  wp_step. wp_step; [rec_solve|].
  case_bool_decide as Hempty.
  { wp_step. wp_step; [rec_solve|]. wp_step.
    apply wp_rec_scroll_page; [done|]. apply Hnext; set_solver. }
  wp_step. wp_step.
  case_bool_decide as Hnone.
  { wp_step. wp_step; [rec_solve|]. wp_step.
    apply wp_rec_scroll_on; [done|]. apply Hnext; set_solver. }
  wp_step. apply wp_rec_answer_questions.
  { intros q [_ Hq]%list_elem_of_filter. apply Hids, elem_of_union_l, elem_of_dom.
    by apply elem_of_sorted_keys. }
  intros s' Hs1 Hs2.
  assert (s' ⊆ s ∪ (dom question_numbers ∪ script_ids script)) as Hs3.
  { intros q Hq. apply Hs2 in Hq as [Hq|Hq]%elem_of_union; [set_solver|].
    apply elem_of_list_to_set, list_elem_of_filter in Hq as [_ Hq].
    apply elem_of_sorted_keys, elem_of_dom in Hq. set_solver. }
  assert (∀ r : loop_end, Q (inr r) s') as Hret'.
  { intros r. by apply HQ. }
  assert (is_Some (w_scroll_raises w) → Q (inl AutomationException) s') as Hwheel'.
  { intros Hw. apply HQ; [done..|]. intros e [= <-].
    left. split; [done|]. exists w. split; [left|done]. }
  wp_step. wp_step. wp_step.
  case_bool_decide.
  + apply wp_rec_scroll_on; [done|]. by apply Hnext.
  + wp_step. by apply Hnext.
Qed.

Lemma wp_rec_answering_loop_scroll_mode ocr_mode script final_stop :
  wp (recognised (script_ids script))
     (_answering_loop_scroll_mode region option_positions T scroll_overlap
        ocr_mode script final_stop)
     (fun r s' => s' ⊆ script_ids script ∧ loop_failure script r) ∅.
Proof.
  unfold _answering_loop_scroll_mode.
  wp_step. wp_step; [rec_solve|].
  wp_step. apply wp_rec_scroll_loop; [done|].
  intros [e|r] s' _ Hs' Hr.
  { split; [set_solver|done]. }
  assert (wp (recognised (script_ids script))
            (answered_questions ← get_answered;
             (if negb final_stop
              then _log (LogFinished (Z.of_nat (size answered_questions)))
              else mret tt);;
             mret r)
            (fun r s' => s' ⊆ script_ids script ∧ loop_failure script r) s') as Hfinal.
  { wp_step. wp_step. wp_step.
    destruct (negb final_stop); wp_step; try rec_solve;
      wp_step; (split; [set_solver|done]). }
  destruct r; try exact Hfinal. wp_step. split; [set_solver|done].
Qed.

End scroll_more.

(** X13: a scroll-mode run asks the oracle and clicks only for question ids
    recognised in one of the windows it went through, and only such ids are
    in the answered set at its end. *)
Theorem scroll_mode_recognised_only
    (region : rect) (option_positions : option (gmap str (Z * Z)))
    (total_questions scroll_overlap : Z) (ocr_mode : recognition_mode)
    (script : list window_env) (final_stop : bool) :
  let r := _answering_loop_scroll_mode region option_positions total_questions
             scroll_overlap ocr_mode script final_stop ∅ in
  final r ⊆ script_ids script ∧
  Forall (fun se => ∀ q, event_question se.2 = Some q → q ∈ script_ids script)
         (events r).
Proof.
  destruct (wp_rec_answering_loop_scroll_mode region option_positions total_questions
              scroll_overlap ocr_mode script final_stop) as (_ & Hrec & Hfinal & _).
  split; [done|]. eapply Forall_impl; [exact Hrec|]. by intros [s ev] Hev.
Qed.



(** A question number of 4301 digits in the second window: the first
    window is answered, then [int] ends the run. *)
Example scroll_long_number :
  let r := _answering_loop_scroll_mode sample_region None 5 150 accurate_basic
             [sample_window; long_window] false ∅ in
  outcome r = inl ValueError ∧ final r = {[1; 2]}.
Proof. split; by vm_compute. Qed.

(** X15: when the stop flag stays clear and the target leaves room for all
    of them, the [for] loop over the unanswered questions of a window
    returns normally with every one of them added to the answered set,
    whether answering them worked or not. *)
Theorem answer_questions_marks_all
    (region : rect) (option_positions : option (gmap str (Z * Z)))
    (total_questions : Z) (question_text : str) (words_result : list word_item)
    (env : Z → question_env) (unanswered_in_view : list Z) (s : gset Z) :
  NoDup unanswered_in_view →
  (∀ q, q ∈ unanswered_in_view → (q ∉ s) ∧ q_stop (env q) = false) →
  Z.of_nat (size s) + Z.of_nat (length unanswered_in_view) ≤ total_questions →
  let r := answer_questions region option_positions total_questions question_text
             words_result env unanswered_in_view s in
  outcome r = inr tt ∧ final r = s ∪ list_to_set unanswered_in_view.
Proof.
  intros Hnd Hin Hsize.
  by destruct (answer_questions_all region option_positions total_questions
                 question_text words_result env unanswered_in_view s Hnd Hin Hsize)
    as (_ & _ & Hout & Hfinal).
Qed.

Lemma answer_questions_marks_all_witness :
  NoDup [1; 2] ∧
  (∀ q, q ∈ [1; 2] →
        (q ∉ (∅ : gset Z)) ∧ q_stop (w_question failing_oracle_window q) = false) ∧
  Z.of_nat (size (∅ : gset Z)) + Z.of_nat (length [1; 2]) ≤ 2 ∧
  outcome (answer_questions sample_region None 2 (lit "1. x") []
             (w_question failing_oracle_window) [1; 2] ∅) = inr tt ∧
  final (answer_questions sample_region None 2 (lit "1. x") []
           (w_question failing_oracle_window) [1; 2] ∅) = ∅ ∪ list_to_set [1; 2].
Proof.
  assert (NoDup [1; 2]) as Hnd by (by apply (bool_decide_unpack (NoDup [1; 2])); vm_compute).
  assert (∀ q, q ∈ [1; 2] →
            (q ∉ (∅ : gset Z)) ∧ q_stop (w_question failing_oracle_window q) = false)
    as Hin by (intros q _; split; [apply not_elem_of_empty|reflexivity]).
  assert (Z.of_nat (size (∅ : gset Z)) + Z.of_nat (length [1; 2]) ≤ 2) as Hsize
    by (by vm_compute).
  split; [exact Hnd|]. split; [exact Hin|]. split; [exact Hsize|].
  exact (answer_questions_marks_all sample_region None 2 (lit "1. x") []
           (w_question failing_oracle_window) [1; 2] ∅ Hnd Hin Hsize).
Defined.

Lemma sorted_keys_empty : sorted_keys ∅ = [].
Proof. unfold sorted_keys. by rewrite dom_empty_L, elements_empty. Qed.

(** The run of [_scroll_page] when the wheel fails. *)
Lemma scroll_page_wheel_fails (distance : Z) (center : Z * Z) (s : gset Z) :
  ¬ (0 ≤ distance < 120) →
  _scroll_page distance center (Some ScrollCall) s
  = Run [(s, MoveTo center.1 center.2); (s, Scroll (- (distance / 120)))]
        s (inl AutomationException).
Proof.
  intros Hd. unfold _scroll_page. cbn beta iota zeta.
  rewrite (bind_inr _ _ s [(s, MoveTo center.1 center.2)] s tt) by reflexivity.
  rewrite (bind_inr _ _ s [] s tt) by reflexivity. rewrite prepend_nil.
  rewrite (bool_decide_eq_true_2 (- (distance / 120) ≠ 0)).
  2:{ intros E. apply Hd. assert (distance / 120 = 0) as E' by lia.
      apply Z.div_small_iff in E'; lia. }
  rewrite (bind_inr _ _ s [(s, Scroll (- (distance / 120)))] s tt) by reflexivity.
  rewrite (bind_inl _ _ s [] s AutomationException) by reflexivity.
  reflexivity.
Qed.

(** X16: a pass of the scroll loop over a window in which no question
    number is recognised answers nothing: it calls [_scroll_page] with the
    region height less the overlap and, if that returns, starts the next
    pass, in the accurate mode; if it raises, the exception ends the loop
    there.  With a failing wheel the mouse has been moved and the wheel
    event sent when the [AutomationException] leaves. *)
Theorem scroll_loop_blind_scroll
    (region : rect) (option_positions : option (gmap str (Z * Z)))
    (total_questions scroll_overlap : Z) (ocr_mode : recognition_mode)
    (w : window_env) (script : list window_env) (words_result : list word_item)
    (s : gset Z) :
  Z.of_nat (size s) < total_questions →
  w_stop w = false → w_capture w = None → w_response w = Some words_result →
  _extract_question_numbers words_result = Some ∅ →
  let seen := pass_prefix ocr_mode total_questions s ++
              [(s, Log (LogQuestionNumbers [])); (s, Log LogNoNumbers)] in
  let distance := y2 region - y1 region - scroll_overlap in
  let center := ((x1 region + x2 region) / 2, (y1 region + y2 region) / 2) in
  let scrolled := _scroll_page distance center (w_scroll_raises w) s in
  scroll_loop region option_positions total_questions scroll_overlap ocr_mode
    (w :: script) s
  = match outcome scrolled with
    | inl e => Run (seen ++ events scrolled) s (inl e)
    | inr _ =>
        prepend (seen ++ events scrolled)
          (scroll_loop region option_positions total_questions scroll_overlap
             accurate_basic script s)
    end ∧
  (w_scroll_raises w = None → outcome scrolled = inr tt) ∧
  (w_scroll_raises w = Some ScrollCall → ¬ (0 ≤ distance < 120) →
   scrolled = Run [(s, MoveTo center.1 center.2); (s, Scroll (- (distance / 120)))]
                  s (inl AutomationException)).
Proof.
  intros Hs Hstop Hcap Hresp Hempty. cbn zeta.
  set (distance := y2 region - y1 region - scroll_overlap).
  set (center := ((x1 region + x2 region) / 2, (y1 region + y2 region) / 2)).
  split_and!.
  - cbn [scroll_loop]. fold distance. fold center.
    rewrite (bind_inr _ _ s [] s s) by reflexivity. rewrite prepend_nil.
    rewrite bool_decide_eq_false_2 by lia. rewrite Hstop, Hcap, Hresp.
    rewrite (bind_inr _ _ s
               [(s, Capture); (s, Log (LogCapturedScroll (size s) total_questions))]
               s true) by reflexivity.
    cbn [negb].
    rewrite (bind_inr _ _ s
               ((if bool_decide (ocr_mode ≠ accurate_basic)
                 then [(s, Log LogForceAccurate)] else [])
                ++ [(s, Recognize accurate_basic)])
               s (Some (join_lines (words <$> words_result), words_result)))
      by (case_bool_decide; reflexivity).
    cbn beta iota zeta. rewrite Hempty.
    rewrite (bind_inr _ _ s [] s ∅) by reflexivity. rewrite prepend_nil.
    rewrite sorted_keys_empty.
    rewrite (bind_inr _ _ s [(s, Log (LogQuestionNumbers []))] s tt) by reflexivity.
    rewrite (bool_decide_eq_true_2 ((∅ : gmap Z question_pos) = ∅)) by done.
    rewrite (bind_inr _ _ s [(s, Log LogNoNumbers)] s tt) by reflexivity.
    destruct (wp_scroll_page_wheel distance center (w_scroll_raises w) s)
      as (_ & _ & Hfinal).
    pose proof (run_eta (_scroll_page distance center (w_scroll_raises w) s)) as Heta.
    rewrite Hfinal in Heta.
    destruct (outcome (_scroll_page distance center (w_scroll_raises w) s))
      as [e|[]] eqn:Hout.
    + rewrite (bind_inl _ _ s _ s e Heta).
      unfold prepend, pass_prefix. cbn [events final outcome].
      f_equal; by rewrite <- ?app_assoc.
    + rewrite (bind_inr _ _ s _ s tt Heta).
      rewrite !prepend_prepend. unfold pass_prefix. f_equal; by rewrite <- ?app_assoc.
  - intros ->. by rewrite scroll_page_run.
  - intros -> Hd. by apply scroll_page_wheel_fails.
Qed.

Lemma scroll_loop_blind_scroll_witness :
  let seen := pass_prefix general_basic 2 ∅ ++
              [(∅, Log (LogQuestionNumbers [])); (∅, Log LogNoNumbers)] in
  let scrolled := _scroll_page 850 (400, 500) (w_scroll_raises stuck_window) ∅ in
  Z.of_nat (size (∅ : gset Z)) < 2 ∧
  w_stop stuck_window = false ∧ w_capture stuck_window = None ∧
  w_response stuck_window = Some [word_at (lit "loading") 20 100 80 20] ∧
  _extract_question_numbers [word_at (lit "loading") 20 100 80 20] = Some ∅ ∧
  scroll_loop sample_region None 2 150 general_basic [stuck_window; sample_window] ∅
  = match outcome scrolled with
    | inl e => Run (seen ++ events scrolled) ∅ (inl e)
    | inr _ =>
        prepend (seen ++ events scrolled)
          (scroll_loop sample_region None 2 150 accurate_basic [sample_window] ∅)
    end ∧
  (w_scroll_raises stuck_window = None → outcome scrolled = inr tt) ∧
  (w_scroll_raises stuck_window = Some ScrollCall → ¬ (0 ≤ 850 < 120) →
   scrolled = Run [(∅, MoveTo 400 500); (∅, Scroll (- (850 / 120)))]
                  ∅ (inl AutomationException)).
Proof.
  intros seen scrolled.
  assert (_extract_question_numbers [word_at (lit "loading") 20 100 80 20] = Some ∅)
    as Hempty by (by vm_compute).
  split; [by vm_compute|]. do 3 (split; [reflexivity|]). split; [exact Hempty|].
  apply (scroll_loop_blind_scroll sample_region None 2 150 general_basic
           stuck_window [sample_window] [word_at (lit "loading") 20 100 80 20] ∅);
    [by vm_compute|reflexivity..|exact Hempty].
Defined.

(** The whole run over the stuck window: it ends with the exception after
    the wheel event. *)
Example scroll_stuck_run :
  let r := scroll_loop sample_region None 2 150 accurate_basic [stuck_window] ∅ in
  outcome r = inl AutomationException ∧
  last (events r) = Some (∅, Scroll (-7)).
Proof. split; by vm_compute. Qed.


(** ** More on the fixed-page loop and the worker thread *)


Section single_question.
Variable region : rect.
Variable next_button_pos : option (Z * Z).
Variable ocr_mode : recognition_mode.
Variable auto_next : bool.
Implicit Types (s : gset Z) (i : Z).



End single_question.



(** X18: the worker thread of [start_answering], started with no question
    answered, lets no exception of the loop out: it logs it and then, as
    after a normal end of the loop, runs the stop callback as the last thing
    it does.  In the fixed-page mode the only exception there can be to log
    is that of the pause between two questions, so there is none when
    [time.sleep] accepts the interval. *)
Theorem answering_thread_calls_back
    (scroll_mode : bool) (region : rect) (option_positions : option (gmap str (Z * Z)))
    (next_button_pos : option (Z * Z)) (interval : float) (total_questions : Z)
    (ocr_mode : recognition_mode) (auto_next : bool) (scroll_overlap : Z)
    (script : list window_env) (env : Z → iteration_env) (final_stop : bool)
    (stop_callback : option (M unit)) :
  let loop : M unit :=
    if scroll_mode then
      _answering_loop_scroll_mode region option_positions total_questions
        scroll_overlap ocr_mode script final_stop;;
      mret tt
    else
      _answering_loop_normal_mode region option_positions next_button_pos
        interval total_questions ocr_mode auto_next env final_stop in
  let r := loop ∅ in
  let logged :=
    match outcome r with
    | inl e => [(final r, Log (LogRunError e))]
    | inr _ => []
    end in
  answering_thread scroll_mode region option_positions next_button_pos interval
    total_questions ocr_mode auto_next scroll_overlap script env final_stop
    stop_callback ∅
  = prepend (events r ++ logged) (default (mret tt) stop_callback (final r)) ∧
  (scroll_mode = false →
   (∀ e, outcome r = inl e → sleep_error interval = Some e) ∧
   (sleep_error interval = None → logged = [])).
Proof.
  cbn zeta. split.
  - unfold answering_thread, try_finally, try_except, prepend.
    set (loop := if scroll_mode then _ else _).
    destruct (outcome (loop ∅)) as [e|[]] eqn:Hout.
    + change (_log (LogRunError e) (final (loop ∅)))
        with (Run [(final (loop ∅), Log (LogRunError e))] (final (loop ∅)) (inr tt)).
      destruct stop_callback as [callback|];
        cbn [events final outcome default from_option id mret M_ret ret].
      * f_equal; first [ by rewrite ?app_nil_r
                       | by destruct (outcome (callback (final (loop ∅)))) as [?|[]] ].
      * by rewrite app_nil_r.
    + rewrite Hout.
      destruct stop_callback as [callback|];
        cbn [events final outcome default from_option id mret M_ret ret].
      * f_equal; first [ by rewrite ?app_nil_r
                       | by destruct (outcome (callback (final (loop ∅)))) as [?|[]] ].
      * by rewrite !app_nil_r.
  - intros ->.
    destruct (normal_mode_run region option_positions next_button_pos interval
                total_questions ocr_mode auto_next env final_stop ∅)
      as (Hx & Ho & _).
    split; [exact Hx|]. intros Hok. destruct (Ho Hok) as [-> _]. done.
Qed.

(** With an interval that is not a number the fixed-page loop ends at its
    first pause, and the thread logs the [ValueError]. *)
Example answering_thread_failing_pause :
  let r := answering_thread false (Rect 0 0 800 600) (Some sample_positions)
             (Some (700, 550)) PrimFloat.nan 3 general_basic false 150 []
             (fun _ => sample_iteration) false None ∅ in
  outcome r = inr tt ∧ last (events r) = Some (∅, Log (LogRunError ValueError)).
Proof. split; by vm_compute. Qed.
